(** * CHESS_MINMAX: minimax with alpha-beta pruning over python-chess

    A shallow embedding of [src/CHESS_MINMAX.py] (class [ChessGame]) and the
    properties of its search and evaluation functions.

    The chess rules themselves live in the python-chess library, which the
    program only calls.  The library is therefore an interface here (class
    [RulesEngine]); the functions of [ChessGame] are translated over it, and
    the contracts the library is relied on for are explicit hypotheses. *)

From Stdlib Require Import ZArith List Bool String Lia.
From Stdlib Require Import Ascii DecimalString.
Import ListNotations.
Local Open Scope Z_scope.

(** ** Scores

    [evaluate_board] returns Python integers; [minimax] mixes them with the
    floats [-inf] and [inf] of [math].  Python orders an integer against an
    infinity exactly, so a score is an integer or one of the two
    infinities. *)

Inductive Score : Type :=
| NegInf : Score
| Fin : Z -> Score
| PosInf : Score.

Module ScoreOrd.

(** [a < b] of Python on scores. *)
Definition ltb (a b : Score) : bool :=
  match a, b with
  | NegInf, NegInf => false
  | NegInf, _ => true
  | Fin _, NegInf => false
  | Fin x, Fin y => x <? y
  | Fin _, PosInf => true
  | PosInf, _ => false
  end.

(** [a > b] is [b < a]; [a <= b] is tested directly by Python, and on a
    total order without NaN it is the negation of [b < a]. *)
Definition gtb (a b : Score) : bool := ltb b a.

Definition leb (a b : Score) : bool :=
  match a, b with
  | NegInf, _ => true
  | Fin _, NegInf => false
  | Fin x, Fin y => x <=? y
  | Fin _, PosInf => true
  | PosInf, PosInf => true
  | PosInf, _ => false
  end.

(** The builtin [max(a, b)]: the first argument is kept unless the second
    is strictly greater.  [min(a, b)] likewise. *)
Definition max (a b : Score) : Score := if gtb b a then b else a.
Definition min (a b : Score) : Score := if ltb b a then b else a.

Definition lt (a b : Score) : Prop := ltb a b = true.
Definition le (a b : Score) : Prop := leb a b = true.

End ScoreOrd.

Declare Scope score_scope.
Delimit Scope score_scope with score.
Bind Scope score_scope with Score.
Infix "<?" := ScoreOrd.ltb : score_scope.
Infix ">?" := ScoreOrd.gtb : score_scope.
Infix "<=?" := ScoreOrd.leb : score_scope.
Infix "<" := ScoreOrd.lt : score_scope.
Infix "<=" := ScoreOrd.le : score_scope.

(** ** Pieces (python-chess [chess.Piece]) *)

Inductive PieceType : Type := PAWN | KNIGHT | BISHOP | ROOK | QUEEN | KING.

Definition PieceType_eqb (a b : PieceType) : bool :=
  match a, b with
  | PAWN, PAWN | KNIGHT, KNIGHT | BISHOP, BISHOP
  | ROOK, ROOK | QUEEN, QUEEN | KING, KING => true
  | _, _ => false
  end.

(** [chess.WHITE] is [True] and [chess.BLACK] is [False]. *)
Definition Color : Type := bool.
Definition WHITE : Color := true.
Definition BLACK : Color := false.

Record Piece : Type := mkPiece { piece_type : PieceType; color : Color }.

(** [chess.SQUARES] is [range(64)]. *)
Definition Square : Type := nat.
Definition SQUARES : list Square := seq 0 64.

(** ** The rules engine (python-chess [chess.Board])

    What [ChessGame] calls on [self.board].  [push] and [pop] mutate the board
    in place, so they are functions from the board before to the board after;
    [pop] raises [IndexError] on an empty move stack, which is [None]. *)

Class RulesEngine : Type := {
  Board : Type;
  Move : Type;
  legal_moves : Board -> list Move;
  push : Board -> Move -> Board;
  pop : Board -> option Board;
  is_game_over : Board -> bool;
  is_checkmate : Board -> bool;
  is_stalemate : Board -> bool;
  turn : Board -> Color;
  piece_at : Board -> Square -> option Piece
}.

(** The contract of [pop]: it reverses exactly the most recent [push] of a
    legal move. *)
Definition Reversible (E : RulesEngine) : Prop :=
  forall (b : Board) (m : Move), In m (legal_moves b) -> pop (push b m) = Some b.

(** The terminal check and the move enumeration agree: a board that is not
    game over has a legal move. *)
Definition Consistent (E : RulesEngine) : Prop :=
  forall b : Board, is_game_over b = false -> legal_moves b <> [].

(** ** Computations on the shared board

    Every method of [ChessGame] works on the one object [self.board]: a
    computation takes the board as it finds it and either raises ([None]) or
    gives its value with the board as it leaves it. *)

Module BoardM.
Section Monad.
Context {E : RulesEngine}.

Definition M (A : Type) : Type := Board -> option (A * Board).

Definition ret {A} (a : A) : M A := fun b => Some (a, b).

Definition bind {A B} (c : M A) (k : A -> M B) : M B :=
fun b => match c b with
         | Some (a, b') => k a b'
         | None => None
         end.

(** Reading the board through one of the engine's queries. *)
Definition ask {A} (q : Board -> A) : M A := fun b => Some (q b, b).

(** [self.board.push(move)] and [self.board.pop()]. *)
Definition do_push (m : Move) : M unit := fun b => Some (tt, push b m).
Definition do_pop : M unit :=
fun b => match pop b with
         | Some b' => Some (tt, b')
         | None => None
         end.

Definition raise {A} : M A := fun _ => None.
End Monad.
End BoardM.
Import BoardM.

Notation "x <- c ;; k" := (bind c (fun x => k))
  (at level 61, c at next level, right associativity).
Notation "c ;;; k" := (bind c (fun _ => k))
  (at level 61, right associativity).

(** ** [ChessGame] *)

Section ChessGame.
Context {E : RulesEngine}.

(** The dictionary [piece_values] of [evaluate_board], and
    [piece_values.get(key, 0)]. *)
Definition piece_values : list (PieceType * Z) :=
  [(PAWN, 1); (KNIGHT, 3); (BISHOP, 3); (ROOK, 5); (QUEEN, 9); (KING, 0)].

Fixpoint dict_get (d : list (PieceType * Z)) (k : PieceType) (default : Z) : Z :=
  match d with
  | [] => default
  | (k', v) :: d' => if PieceType_eqb k' k then v else dict_get d' k default
  end.

(** One round of the loop over [chess.SQUARES]. *)
Definition add_square (b : Board) (score : Z) (square : Square) : Z :=
  match piece_at b square with
  | Some piece =>
      let value := dict_get piece_values (piece_type piece) 0 in
      score + (if Bool.eqb (color piece) WHITE then value else - value)
  | None => score
  end.

Definition material (b : Board) : Z := fold_left (add_square b) SQUARES 0.

Definition evaluate_board (b : Board) : Z :=
  if is_checkmate b then (if turn b then -1000 else 1000)
  else if is_stalemate b then 0
  else material b.

(** The result of [minimax]: [(score, best_move)], the move being [None]
    when there is none. *)
Definition SearchResult : Type := (Score * option Move)%type.

(** The [for move in legal_moves] loop of the maximizing branch.  [child]
    is the recursive call [self.minimax(depth - 1, alpha, beta, False)]. *)
Fixpoint max_loop (child : Score -> Score -> M SearchResult)
    (moves : list Move) (alpha beta max_eval : Score)
    (best_move : option Move) : M SearchResult :=
  match moves with
  | [] => ret (max_eval, best_move)
  | move :: rest =>
      do_push move ;;;
      r <- child alpha beta ;;
      do_pop ;;;
      let eval_score := fst r in
      let upd := (eval_score >? max_eval)%score in
      let max_eval := if upd then eval_score else max_eval in
      let best_move := if upd then Some move else best_move in
      let alpha := ScoreOrd.max alpha eval_score in
      if (beta <=? alpha)%score then ret (max_eval, best_move)
      else max_loop child rest alpha beta max_eval best_move
  end.

(** The loop of the minimizing branch. *)
Fixpoint min_loop (child : Score -> Score -> M SearchResult)
    (moves : list Move) (alpha beta min_eval : Score)
    (best_move : option Move) : M SearchResult :=
  match moves with
  | [] => ret (min_eval, best_move)
  | move :: rest =>
      do_push move ;;;
      r <- child alpha beta ;;
      do_pop ;;;
      let eval_score := fst r in
      let upd := (eval_score <? min_eval)%score in
      let min_eval := if upd then eval_score else min_eval in
      let best_move := if upd then Some move else best_move in
      let beta := ScoreOrd.min beta eval_score in
      if (beta <=? alpha)%score then ret (min_eval, best_move)
      else min_loop child rest alpha beta min_eval best_move
  end.

(** [minimax(self, depth, alpha, beta, is_maximizing)].  [depth] counts the
    plies left and is a natural number; [depth == 0] is tested before
    [is_game_over] is called. *)
Fixpoint minimax (depth : nat) (alpha beta : Score) (is_maximizing : bool)
    : M SearchResult :=
  match depth with
  | O => v <- ask evaluate_board ;; ret (Fin v, None)
  | S depth' =>
      over <- ask is_game_over ;;
      if over then v <- ask evaluate_board ;; ret (Fin v, None)
      else
        moves <- ask legal_moves ;;
        if is_maximizing then
          max_loop (fun a b => minimax depth' a b false)
                   moves alpha beta NegInf None
        else
          min_loop (fun a b => minimax depth' a b true)
                   moves alpha beta PosInf None
  end.

(** [get_random_move].  [random.choice(seq)] is [seq[i]] for an index [i]
    drawn below [len(seq)]; the draw is the argument [rnd]. *)
Definition get_random_move (rnd : nat) : M (option Move) :=
  moves <- ask legal_moves ;;
  match moves with
  | [] => ret None
  | _ :: _ => ret (nth_error moves (Nat.modulo rnd (List.length moves)))
  end.

(** The arguments of one call of [minimax]. *)
Record SearchArgs : Type := mkArgs {
  depth : nat; alpha : Score; beta : Score; is_maximizing : bool
}.

Definition call_minimax (a : SearchArgs) : M SearchResult :=
  minimax (depth a) (alpha a) (beta a) (is_maximizing a).

(** The defaults of
    [def minimax(self, depth=3, alpha=-inf, beta=inf, is_maximizing=True)]. *)
Definition minimax_defaults : SearchArgs :=
  {| depth := 3; alpha := NegInf; beta := PosInf; is_maximizing := true |}.

(** [play_game] calls [self.minimax(depth=3)]: every other argument is the
    default. *)
Definition play_game_search_args : SearchArgs :=
  {| depth := 3;
     alpha := alpha minimax_defaults;
     beta := beta minimax_defaults;
     is_maximizing := is_maximizing minimax_defaults |}.

(** [is_ai_turn] of [play_game]. *)
Definition is_ai_turn (mode : string) (b : Board) : bool :=
  (String.eqb mode "hvr" && Bool.eqb (turn b) BLACK)
  || (String.eqb mode "hvm" && Bool.eqb (turn b) BLACK).

(** The branch [if is_ai_turn] of [play_game], up to the [push] that ends
    the round.  Printing the move ([self.board.san(move)]) and pushing it
    both raise when the move is [None]. *)
Definition computer_turn (mode : string) (rnd : nat) : M unit :=
  move <- (if String.eqb mode "hvr" then get_random_move rnd
           else r <- call_minimax play_game_search_args ;; ret (snd r)) ;;
  match move with
  | Some m => do_push m
  | None => raise
  end.

(** *** Plain minimax

    The search of the specification's pruning-equivalence property: the same
    walk of the same tree with no bounds and no cut-off.  It is [minimax]
    with [alpha], [beta] and the [break] taken out. *)
Fixpoint plain_max_loop (child : M SearchResult) (moves : list Move)
    (max_eval : Score) (best_move : option Move) : M SearchResult :=
  match moves with
  | [] => ret (max_eval, best_move)
  | move :: rest =>
      do_push move ;;;
      r <- child ;;
      do_pop ;;;
      let eval_score := fst r in
      let upd := (eval_score >? max_eval)%score in
      plain_max_loop child rest
        (if upd then eval_score else max_eval)
        (if upd then Some move else best_move)
  end.

Fixpoint plain_min_loop (child : M SearchResult) (moves : list Move)
    (min_eval : Score) (best_move : option Move) : M SearchResult :=
  match moves with
  | [] => ret (min_eval, best_move)
  | move :: rest =>
      do_push move ;;;
      r <- child ;;
      do_pop ;;;
      let eval_score := fst r in
      let upd := (eval_score <? min_eval)%score in
      plain_min_loop child rest
        (if upd then eval_score else min_eval)
        (if upd then Some move else best_move)
  end.

Fixpoint plain_minimax (depth : nat) (is_maximizing : bool) : M SearchResult :=
  match depth with
  | O => v <- ask evaluate_board ;; ret (Fin v, None)
  | S depth' =>
      over <- ask is_game_over ;;
      if over then v <- ask evaluate_board ;; ret (Fin v, None)
      else
        moves <- ask legal_moves ;;
        if is_maximizing then
          plain_max_loop (plain_minimax depth' false) moves NegInf None
        else
          plain_min_loop (plain_minimax depth' true) moves PosInf None
  end.

End ChessGame.

(** ** [print_board] *)

Section Presentation.
Context {E : RulesEngine}.
Local Open Scope string_scope.

(** [piece.symbol()] of python-chess: the letter of the piece type, in upper
    case for White. *)
Definition piece_symbol (t : PieceType) : string :=
  match t with
  | PAWN => "p" | KNIGHT => "n" | BISHOP => "b"
  | ROOK => "r" | QUEEN => "q" | KING => "k"
  end.

Definition upper_char (c : ascii) : ascii :=
  let n := nat_of_ascii c in
  if (97 <=? n)%nat && (n <=? 122)%nat then ascii_of_nat (n - 32) else c.

Fixpoint upper (s : string) : string :=
  match s with
  | EmptyString => EmptyString
  | String c s' => String (upper_char c) (upper s')
  end.

Definition symbol (p : Piece) : string :=
  if color p then upper (piece_symbol (piece_type p))
  else piece_symbol (piece_type p).

(** The dictionary [piece_symbols]; [piece_symbols[key]] raises [KeyError]
    on a key that is missing, which is [None]. *)
Definition piece_symbols : list (string * string) :=
  [("P", "♙"); ("R", "♖"); ("N", "♘"); ("B", "♗"); ("Q", "♕"); ("K", "♔");
   ("p", "♟"); ("r", "♜"); ("n", "♞"); ("b", "♝"); ("q", "♛"); ("k", "♚")].

Fixpoint dict_item (d : list (string * string)) (k : string) : option string :=
  match d with
  | [] => None
  | (k', v) :: d' => if String.eqb k' k then Some v else dict_item d' k
  end.

(** [l[i] = x] on a list: [IndexError] ([None]) past the end. *)
Fixpoint list_set {A} (l : list A) (i : nat) (x : A) : option (list A) :=
  match l, i with
  | [], _ => None
  | _ :: l', O => Some (x :: l')
  | a :: l', S i' =>
      match list_set l' i' x with
      | Some l'' => Some (a :: l'')
      | None => None
      end
  end.

Definition Grid : Type := list (list string).

(** [[['.' for _ in range(8)] for _ in range(8)]]: eight rows, each a list
    of its own. *)
Definition blank_board : Grid := repeat (repeat "." 8) 8.

(** [visual_board[row][col] = text]. *)
Definition grid_set (vb : Grid) (row col : nat) (text : string) : option Grid :=
  match nth_error vb row with
  | Some r =>
      match list_set r col text with
      | Some r' => list_set vb row r'
      | None => None
      end
  | None => None
  end.

(** One round of [for i in range(64)]; [i] is below 64, so that
    [7 - (i // 8)] is not negative. *)
Definition draw_square (b : Board) (vb : option Grid) (i : Square)
    : option Grid :=
  match vb with
  | None => None
  | Some vb =>
      match piece_at b i with
      | Some piece =>
          let row := (7 - (i / 8))%nat in
          let col := (i mod 8)%nat in
          match dict_item piece_symbols (symbol piece) with
          | Some text => grid_set vb row col text
          | None => None
          end
      | None => Some vb
      end
  end.

Definition visual_board (b : Board) : option Grid :=
  fold_left (draw_square b) (seq 0 64) (Some blank_board).

Definition ESC : string := String "027" EmptyString.
Definition WHITE_BG : string := ESC ++ "[47m".
Definition BLACK_BG : string := ESC ++ "[42m".
Definition RESET : string := ESC ++ "[0m".
Definition newline : string := String "010" EmptyString.

(** [str(n)] for a natural number. *)
Definition str (n : nat) : string := NilEmpty.string_of_uint (Nat.to_uint n).

(** [enumerate(l)]. *)
Definition enumerate {A} (l : list A) : list (nat * A) :=
  combine (seq 0 (List.length l)) l.

Definition cell_text (row_idx col_idx : nat) (square : string) : string :=
  (if ((row_idx + col_idx) mod 2 =? 0)%nat then WHITE_BG else BLACK_BG)
  ++ " " ++ square ++ " " ++ RESET.

Definition row_text (row_idx : nat) (row : list string) : string :=
  fold_left (fun row_str cs => row_str ++ cell_text row_idx (fst cs) (snd cs))
    (enumerate row) (str (8 - row_idx) ++ " |")
  ++ "| " ++ str (8 - row_idx).

Fixpoint times (s : string) (n : nat) : string :=
  match n with
  | O => EmptyString
  | S n' => s ++ times s n'
  end.

(** The arguments of the calls of [print] in [print_board], in order. *)
Definition board_prints (vb : Grid) : list string :=
  [newline ++ "    a  b  c  d  e  f  g  h"; "  " ++ times "-" 25]
  ++ map (fun rr => row_text (fst rr) (snd rr)) (enumerate vb)
  ++ ["  " ++ times "-" 25; "    a  b  c  d  e  f  g  h" ++ newline].

(** The text a square shows: the figure of its piece, or a dot. *)
Definition square_text (b : Board) (i : Square) : option string :=
  match piece_at b i with
  | Some piece => dict_item piece_symbols (symbol piece)
  | None => Some "."
  end.

Definition grid_get (vb : Grid) (row col : nat) : option string :=
  match nth_error vb row with
  | Some r => nth_error r col
  | None => None
  end.

End Presentation.

(** ** The console and the game loop *)

(** What [play_game] uses beyond the search: the move notation of
    python-chess, its [result()], and [str.strip] of Python.  [parse_san]
    raises [InvalidMoveError], [IllegalMoveError] or [AmbiguousMoveError],
    all of them [ValueError]s, on a text that is no legal move: [None]. *)
Class Interface (E : RulesEngine) : Type := {
  parse_san : Board -> string -> option Move;
  san : Board -> Move -> string;
  result : Board -> string;
  strip : string -> string
}.

(** What is written to the terminal: a [print]ed line, or the prompt of an
    [input]. *)
Inductive Output : Type :=
| Line : string -> Output
| Prompt : string -> Output.

Section Console.
Context {E : RulesEngine} {I : Interface E}.
Local Open Scope string_scope.

(** The board together with the lines still to be read and everything
    written so far. *)
Record World : Type := mkWorld {
  w_board : Board;
  w_stdin : list string;
  w_stdout : list Output
}.

Definition IO (A : Type) : Type := World -> option (A * World).

Definition io_ret {A} (a : A) : IO A := fun w => Some (a, w).

Definition io_bind {A B} (c : IO A) (k : A -> IO B) : IO B :=
  fun w => match c w with
           | Some (a, w') => k a w'
           | None => None
           end.

Definition io_raise {A} : IO A := fun _ => None.

(** A computation on the board, run on the board of the world. *)
Definition on_board {A} (c : M A) : IO A :=
  fun w => match c (w_board w) with
           | Some (a, b') => Some (a, mkWorld b' (w_stdin w) (w_stdout w))
           | None => None
           end.

Definition print (s : string) : IO unit :=
  fun w => Some (tt, mkWorld (w_board w) (w_stdin w) (w_stdout w ++ [Line s])%list).

(** [input(prompt)]: [EOFError] when nothing is left to read. *)
Definition input (prompt : string) : IO string :=
  fun w => match w_stdin w with
           | [] => None
           | line :: rest =>
               Some (line, mkWorld (w_board w) rest (w_stdout w ++ [Prompt prompt])%list)
           end.

Notation "x <~ c ;; k" := (io_bind c (fun x => k))
  (at level 61, c at next level, right associativity).
Notation "c ;;> k" := (io_bind c (fun _ => k))
  (at level 61, right associativity).

Definition print_board : IO unit :=
  vb <~ on_board (fun b => match visual_board b with
                           | Some vb => Some (vb, b)
                           | None => None
                           end) ;;
  fun w => Some (tt, mkWorld (w_board w) (w_stdin w)
                       (w_stdout w ++ map Line (board_prints vb))%list).

Definition invalid_move_text : string :=
  "Invalid or illegal move! Use algebraic notation (e.g., e2e4, Nf3). Try again.".

Definition move_prompt : string := "Enter your move (e.g., e2e4): ".

(** The loop of [ask_human_move], on the lines still to be read: each round
    reads one. *)
Fixpoint ask_from (b : Board) (lines : list string) (out : list Output)
    : option (Move * (list string * list Output)) :=
  match lines with
  | [] => None
  | line :: rest =>
      let out := (out ++ [Prompt move_prompt])%list in
      match parse_san b (strip line) with
      | Some move => Some (move, (rest, out))
      | None => ask_from b rest (out ++ [Line invalid_move_text])%list
      end
  end.

Definition ask_human_move : IO Move :=
  fun w => match ask_from (w_board w) (w_stdin w) (w_stdout w) with
           | Some (move, (rest, out)) => Some (move, mkWorld (w_board w) rest out)
           | None => None
           end.

Definition turn_color (b : Board) : string :=
  if Bool.eqb (turn b) WHITE then "White" else "Black".

(** One round of the loop of [play_game]; [draw] is what [random.choice]
    draws in it. *)
Definition play_round (mode : string) (draw : nat) : IO unit :=
  print_board ;;>
  b <~ on_board (ask (fun b => b)) ;;
  print (turn_color b ++ "'s move") ;;>
  move <~ (if is_ai_turn mode b then
             print "Computer is thinking..." ;;>
             found <~ on_board
                        (if String.eqb mode "hvr" then get_random_move draw
                         else r <- call_minimax play_game_search_args ;;
                              ret (snd r)) ;;
             match found with
             | Some move =>
                 b' <~ on_board (ask (fun b => b)) ;;
                 print ("Computer plays: " ++ san b' move) ;;>
                 io_ret move
             | None => io_raise
             end
           else ask_human_move) ;;
  on_board (do_push move).

(** The [while] loop, for at most [fuel] rounds; [n] counts the rounds gone
    by.  The result tells whether the loop came to its end. *)
Fixpoint play_loop (fuel : nat) (mode : string) (rnd : nat -> nat) (n : nat)
    : IO bool :=
  b <~ on_board (ask (fun b => b)) ;;
  if is_game_over b then io_ret true
  else
    match fuel with
    | O => io_ret false
    | S fuel' =>
        play_round mode (rnd n) ;;>
        play_loop fuel' mode rnd (S n)
    end.

(** What [play_game] does after the loop. *)
Definition game_over_report : IO unit :=
  print_board ;;>
  b <~ on_board (ask (fun b => b)) ;;
  let result := result b in
  print "Game over!" ;;>
  if is_checkmate b then
    let winner := if Bool.eqb (turn b) WHITE then "Black" else "White" in
    print ("Checkmate! " ++ winner ++ " wins!")
  else
    print ("It's a draw! " ++ result).

Definition play_game (fuel : nat) (mode : string) (rnd : nat -> nat)
    : IO bool :=
  print ("Starting Chess Game | Mode: " ++ mode) ;;>
  finished <~ play_loop fuel mode rnd 0 ;;
  if finished then game_over_report ;;> io_ret true
  else io_ret false.

End Console.

Notation "x <~ c ;; k" := (io_bind c (fun x => k))
  (at level 61, c at next level, right associativity).
Notation "c ;;> k" := (io_bind c (fun _ => k))
  (at level 61, right associativity).

(** ** Rules engines given by a table

    A finite game graph written out position by position: what python-chess
    answers on each position and where each legal move leads.  As in
    python-chess the board keeps the stack of the positions it came through,
    [push] saves the current one and [pop] restores the last one saved. *)

Module Table.

Record Position : Type := mkPosition {
  p_moves : list (nat * nat);          (* legal move, position it leads to *)
  p_game_over : bool;
  p_checkmate : bool;
  p_stalemate : bool;
  p_turn : Color;
  p_pieces : list (Square * Piece)
}.

Record TBoard : Type := mkBoard { here : nat; stack : list nat }.

Fixpoint assoc {A} (k : nat) (l : list (nat * A)) : option A :=
  match l with
  | [] => None
  | (k', a) :: l' => if Nat.eqb k' k then Some a else assoc k l'
  end.

Section Engine.
Variable table : nat -> Position.

Definition t_push (b : TBoard) (m : nat) : TBoard :=
  {| here := match assoc m (p_moves (table (here b))) with
             | Some p => p
             | None => here b
             end;
     stack := here b :: stack b |}.

Definition t_pop (b : TBoard) : option TBoard :=
  match stack b with
  | [] => None
  | p :: s => Some {| here := p; stack := s |}
  end.

Definition engine : RulesEngine := {|
  Board := TBoard;
  Move := nat;
  legal_moves := fun b => map fst (p_moves (table (here b)));
  push := t_push;
  pop := t_pop;
  is_game_over := fun b => p_game_over (table (here b));
  is_checkmate := fun b => p_checkmate (table (here b));
  is_stalemate := fun b => p_stalemate (table (here b));
  turn := fun b => p_turn (table (here b));
  piece_at := fun b sq => assoc sq (p_pieces (table (here b)))
|}.
End Engine.

Definition start : TBoard := {| here := 0; stack := [] |}.

End Table.

(** ** Example positions *)

Module Examples.
Import Table.

Definition wK := mkPiece KING WHITE.
Definition wQ := mkPiece QUEEN WHITE.
Definition wR := mkPiece ROOK WHITE.
Definition wB := mkPiece BISHOP WHITE.
Definition bK := mkPiece KING BLACK.
Definition bQ := mkPiece QUEEN BLACK.
Definition bR := mkPiece ROOK BLACK.

Definition finished : Position :=
  mkPosition [] true false false WHITE [(4%nat, wK); (60%nat, bK)].

(** A small game.  Position 0 has Black to move with two moves: move 0 goes
    on to a position White is fine in, move 1 mates White at once
    (position 2).  Position 4 is a stalemate, position 6 is drawn by
    insufficient material (king and bishop against king), and every other
    number is a finished game. *)
Definition game (n : nat) : Position :=
  match n with
  | 0%nat => mkPosition [(0%nat, 1%nat); (1%nat, 2%nat)] false false false BLACK
               [(4%nat, wK); (0%nat, wR); (60%nat, bK); (59%nat, bQ)]
  | 1%nat => mkPosition [(0%nat, 3%nat); (1%nat, 4%nat)] false false false WHITE
               [(4%nat, wK); (0%nat, wR); (60%nat, bK); (59%nat, bQ)]
  | 2%nat => mkPosition [] true true false WHITE
               [(4%nat, wK); (3%nat, wQ); (60%nat, bK); (12%nat, bR)]
  | 3%nat => mkPosition [(0%nat, 5%nat)] false false false BLACK
               [(4%nat, wK); (0%nat, wR); (60%nat, bK)]
  | 4%nat => mkPosition [] true false true BLACK
               [(46%nat, wK); (53%nat, wQ); (63%nat, bK)]
  | 5%nat => mkPosition [(0%nat, 6%nat)] false false false WHITE
               [(4%nat, wK); (0%nat, wR); (60%nat, bK)]
  | 6%nat => mkPosition [] true false false BLACK
               [(4%nat, wK); (2%nat, wB); (60%nat, bK)]
  | _ => finished
  end.

Definition game_engine : RulesEngine := engine game.

(** Black is mated at position 0 of this one. *)
Definition black_mated (n : nat) : Position :=
  match n with
  | 0%nat => mkPosition [] true true false BLACK
               [(4%nat, wK); (60%nat, bK); (59%nat, bQ); (52%nat, wR)]
  | _ => finished
  end.

Definition black_mated_engine : RulesEngine := engine black_mated.

(** An engine that contradicts itself: position 0 is not game over and has
    no legal move. *)
Definition stuck (n : nat) : Position :=
  match n with
  | 0%nat => mkPosition [] false false false WHITE [(4%nat, wK); (60%nat, bK)]
  | _ => finished
  end.

Definition stuck_engine : RulesEngine := engine stuck.

Definition at_position (n : nat) : TBoard := {| here := n; stack := [] |}.

End Examples.


Section ConsoleOutcomes.
Context {E : RulesEngine} {I : Interface E}.

(** What [ask_human_move] writes for the lines it turns down: the prompt and
    the complaint, once for each. *)
Definition rejected_output (bad : list string) : list Output :=
  List.concat (map (fun _ => [Prompt move_prompt; Line invalid_move_text]) bad).

(** A line that [parse_san] does not take for a move of [b]. *)
Definition rejected (b : Board) (line : string) : Prop :=
  parse_san b (strip line) = None.

(** The last line of [play_game]. *)
Definition verdict (b : Board) : string :=
  if is_checkmate b then
    ("Checkmate! " ++ (if Bool.eqb (turn b) WHITE then "Black" else "White")
     ++ " wins!")%string
  else ("It's a draw! " ++ result b)%string.



End ConsoleOutcomes.

(** ** A console for the example positions *)

Module ExampleConsole.
Import Table Examples.
Local Open Scope string_scope.

(** Moves are written as their numbers. *)
Definition t_parse (table : nat -> Position) (b : TBoard) (text : string)
    : option nat :=
  find (fun m => String.eqb (str m) text)
       (map fst (p_moves (table (here b)))).

Definition t_result (table : nat -> Position) (b : TBoard) : string :=
  let p := table (here b) in
  if p_checkmate p then (if p_turn p then "0-1" else "1-0")
  else if p_game_over p then "1/2-1/2" else "*".

(** [str.strip] on texts without white space at either end. *)
Definition t_strip (text : string) : string := text.

Definition console (table : nat -> Position) : Interface (engine table) :=
  @Build_Interface (engine table)
    (t_parse table) (fun _ m => str m) (t_result table) t_strip.

Definition game_console : Interface game_engine := console game.

Definition world (n : nat) (lines : list string) : @World game_engine :=
  mkWorld (E := game_engine) (at_position n) lines [].

End ExampleConsole.

(** ** More example positions *)

Module MoreExamples.
Import Table Examples.

(** White is to move at position 0: move 0 leads on (position 2), move 1
    mates Black (position 1). *)
Definition mating (n : nat) : Position :=
  match n with
  | 0%nat => mkPosition [(0%nat, 2%nat); (1%nat, 1%nat)] false false false WHITE
               [(4%nat, wK); (3%nat, wQ); (60%nat, bK)]
  | 1%nat => mkPosition [] true true false BLACK
               [(4%nat, wK); (59%nat, wQ); (60%nat, bK)]
  | 2%nat => mkPosition [(0%nat, 3%nat)] false false false BLACK
               [(4%nat, wK); (11%nat, wQ); (60%nat, bK)]
  | _ => finished
  end.

Definition mating_engine : RulesEngine := engine mating.

(** Position 1 is position 0 with the colours changed and the other side to
    move. *)
Definition mirrored (n : nat) : Position :=
  match n with
  | 0%nat => mkPosition [] false false false WHITE
               [(4%nat, wK); (3%nat, wQ); (60%nat, bK)]
  | 1%nat => mkPosition [] false false false BLACK
               [(4%nat, bK); (3%nat, bQ); (60%nat, wK)]
  | _ => finished
  end.

Definition mirrored_engine : RulesEngine := engine mirrored.

End MoreExamples.

(** ** What a search comes back with *)

(** What a search with the window [alpha], [beta] may answer ([s]) at a node
    whose plain minimax score is [v]: the score itself when it lies inside the
    window, and otherwise a score on the same side of the window, no further
    from it than [v]. *)
Definition within (alpha beta s v : Score) : Prop :=
  ((v <= alpha)%score -> (v <= s)%score /\ (s <= alpha)%score)
  /\ ((alpha < v)%score -> (v < beta)%score -> s = v)
  /\ ((beta <= v)%score -> (beta <= s)%score /\ (s <= v)%score).

Section Outcomes.
Context {E : RulesEngine}.

(** A computation that finishes on board [b] with value [a] and leaves the
    board as it found it. *)
Definition returns {A} (c : M A) (b : Board) (a : A) : Prop := c b = Some (a, b).

(** A result with an integer score, and one that moreover names a legal
    move of [b]. *)
Definition finite (r : SearchResult) : Prop := exists z, fst r = Fin z.

Definition found (b : Board) (r : SearchResult) : Prop :=
  exists z m, r = (Fin z, Some m) /\ In m (legal_moves b).

(** The move a loop keeps after its first child when it started from
    [-inf] (maximizing) or [inf] (minimizing). *)
Definition first_move (is_maximizing : bool) (s : Score) (mv : Move)
    : option Move :=
  if (if is_maximizing then (s >? NegInf)%score else (s <? PosInf)%score)
  then Some mv else None.

End Outcomes.

Section Subtrees.
Context {E : RulesEngine}.

(** The score the search with the full window gives the position that move
    [m] leads to from [b]; [is_maximizing] is the flag of that search. *)
Definition subtree_score (d : nat) (is_maximizing : bool) (b : Board)
    (m : Move) (v : Score) : Prop :=
  exists om,
    minimax d NegInf PosInf is_maximizing (push b m) = Some ((v, om), push b m).

(** The score a computation ends on ([-inf] stands in when it raises). *)
Definition result_score (c : M SearchResult) (b : Board) : Score :=
  match c b with
  | Some (r, _) => fst r
  | None => NegInf
  end.

(** An evaluation: an integer between the two mate scores. *)
Definition in_range (s : Score) : Prop :=
  exists z, s = Fin z /\ -1000 <= z <= 1000.

End Subtrees.

Section Material.
Context {E : RulesEngine}.

(** What a square adds to the material count: the value of its piece, with
    the sign of its colour. *)
Definition contribution (square : option Piece) : Z :=
  match square with
  | Some piece =>
      let value := dict_get piece_values (piece_type piece) 0 in
      if Bool.eqb (color piece) WHITE then value else - value
  | None => 0
  end.

(** The same piece of the other colour. *)
Definition swap_color (piece : Piece) : Piece :=
  mkPiece (piece_type piece) (negb (color piece)).

End Material.

(** * Properties *)

(** ** The order on scores *)

Module ScoreFacts.

(** Finitely many scores sit inside the integers in their order: with [B]
    beyond every integer among them, [-inf] is [-B] and [inf] is [B]. *)
Definition emb (B : Z) (a : Score) : Z :=
  match a with NegInf => - B | Fin z => z | PosInf => B end.

Definition bounded (B : Z) (a : Score) : Prop :=
  match a with Fin z => - B < z < B | _ => 0 < B end.

Lemma bounded_weaken B B' a : B <= B' -> bounded B a -> bounded B' a.
Proof. destruct a; simpl; lia. Qed.

Lemma bound_exists (l : list Score) : exists B, Forall (bounded B) l.
Proof.
  induction l as [|a l [B HB]].
  - exists 1. constructor.
  - exists (Z.max B (Z.abs (emb 1 a) + 1)). constructor.
    + destruct a; simpl; lia.
    + eapply Forall_impl; [|exact HB].
      intros x. apply bounded_weaken. lia.
Qed.

Section Embedding.
Variables (B : Z) (a b : Score).
Hypotheses (Ha : bounded B a) (Hb : bounded B b).

Lemma emb_range : - B <= emb B a <= B.
Proof using Ha. destruct a; simpl in *; lia. Qed.

Lemma ltb_true : (a <? b)%score = true <-> emb B a < emb B b.
Proof using Ha Hb.
  destruct a, b; simpl in *; rewrite ?Z.ltb_lt;
    (split; [intros; try discriminate; lia | intros; try reflexivity; lia]).
Qed.

Lemma leb_true : (a <=? b)%score = true <-> emb B a <= emb B b.
Proof using Ha Hb.
  destruct a, b; simpl in *; rewrite ?Z.leb_le;
    (split; [intros; try discriminate; lia | intros; try reflexivity; lia]).
Qed.

Lemma ltb_false : (a <? b)%score = false <-> emb B b <= emb B a.
Proof using Ha Hb.
  destruct a, b; simpl in *; rewrite ?Z.ltb_ge;
    (split; [intros; try discriminate; lia | intros; try reflexivity; lia]).
Qed.

Lemma leb_false : (a <=? b)%score = false <-> emb B b < emb B a.
Proof using Ha Hb.
  destruct a, b; simpl in *; rewrite ?Z.leb_gt;
    (split; [intros; try discriminate; lia | intros; try reflexivity; lia]).
Qed.

Lemma emb_eq : a = b <-> emb B a = emb B b.
Proof using Ha Hb.
  split; [intros ->; reflexivity|].
  destruct a, b; simpl in *; intros; try reflexivity; try lia.
  f_equal; assumption.
Qed.
End Embedding.

Lemma le_refl (a : Score) : (a <= a)%score.
Proof. destruct a; simpl; try reflexivity. apply Z.leb_refl. Qed.

End ScoreFacts.

(** The scores of the context, as a list. *)
Ltac score_list acc :=
  match goal with
  | x : Score |- _ =>
      lazymatch acc with
      | context [x] => fail
      | _ => score_list (x :: acc)
      end
  | _ => acc
  end.

(** Decides a goal about the order of the scores of the context: every
    comparison is moved to the integers and the rest is [lia]. *)
Ltac score_solve :=
  intros;
  unfold ScoreOrd.lt, ScoreOrd.le, ScoreOrd.max, ScoreOrd.min, ScoreOrd.gtb in *;
  let l := score_list (NegInf :: PosInf :: @nil Score) in
  let B := fresh "B" in
  let HB := fresh "HB" in
  destruct (ScoreFacts.bound_exists l) as [B HB];
  repeat match goal with
    | H : Forall _ (_ :: _) |- _ =>
        let H1 := fresh "Hb" in
        apply Forall_cons_iff in H; destruct H as [H1 H];
        pose proof (ScoreFacts.emb_range _ _ H1)
    end;
  repeat match goal with
    | H : context [ScoreOrd.ltb ?a ?b = ?c] |- _ =>
        first [ rewrite (ScoreFacts.ltb_true B a b ltac:(assumption) ltac:(assumption)) in H
              | rewrite (ScoreFacts.ltb_false B a b ltac:(assumption) ltac:(assumption)) in H ]
    | H : context [ScoreOrd.leb ?a ?b = ?c] |- _ =>
        first [ rewrite (ScoreFacts.leb_true B a b ltac:(assumption) ltac:(assumption)) in H
              | rewrite (ScoreFacts.leb_false B a b ltac:(assumption) ltac:(assumption)) in H ]
    | |- context [ScoreOrd.ltb ?a ?b = ?c] =>
        first [ rewrite (ScoreFacts.ltb_true B a b ltac:(assumption) ltac:(assumption))
              | rewrite (ScoreFacts.ltb_false B a b ltac:(assumption) ltac:(assumption)) ]
    | |- context [ScoreOrd.leb ?a ?b = ?c] =>
        first [ rewrite (ScoreFacts.leb_true B a b ltac:(assumption) ltac:(assumption))
              | rewrite (ScoreFacts.leb_false B a b ltac:(assumption) ltac:(assumption)) ]
    | H : context [if ScoreOrd.ltb ?a ?b then _ else _] |- _ =>
        let T := fresh "T" in
        destruct (ScoreOrd.ltb a b) eqn:T;
        [ apply (ScoreFacts.ltb_true B a b) in T
        | apply (ScoreFacts.ltb_false B a b) in T ]; try assumption
    | |- context [if ScoreOrd.ltb ?a ?b then _ else _] =>
        let T := fresh "T" in
        destruct (ScoreOrd.ltb a b) eqn:T;
        [ apply (ScoreFacts.ltb_true B a b) in T
        | apply (ScoreFacts.ltb_false B a b) in T ]; try assumption
    | H : context [@eq Score ?a ?b] |- _ =>
        rewrite (ScoreFacts.emb_eq B a b ltac:(assumption) ltac:(assumption)) in H
    | |- context [@eq Score ?a ?b] =>
        rewrite (ScoreFacts.emb_eq B a b ltac:(assumption) ltac:(assumption))
    end;
  simpl ScoreFacts.emb in *; simpl ScoreFacts.bounded in *;
  lia.

(** ** Running the loops one move at a time *)

Section Steps.
Context {E : RulesEngine}.

Lemma max_loop_step child move rest alpha beta max_eval best_move b r :
  pop (push b move) = Some b ->
  returns (child alpha beta) (push b move) r ->
  max_loop child (move :: rest) alpha beta max_eval best_move b =
    (let upd := (fst r >? max_eval)%score in
     let max_eval' := if upd then fst r else max_eval in
     let best_move' := if upd then Some move else best_move in
     let alpha' := ScoreOrd.max alpha (fst r) in
     if (beta <=? alpha')%score then Some ((max_eval', best_move'), b)
     else max_loop child rest alpha' beta max_eval' best_move' b).
Proof.
  unfold returns. intros Hpop Hc.
  simpl. unfold bind, do_push, do_pop. rewrite Hc, Hpop. simpl.
  destruct (_ <=? _)%score; reflexivity.
Qed.

Lemma min_loop_step child move rest alpha beta min_eval best_move b r :
  pop (push b move) = Some b ->
  returns (child alpha beta) (push b move) r ->
  min_loop child (move :: rest) alpha beta min_eval best_move b =
    (let upd := (fst r <? min_eval)%score in
     let min_eval' := if upd then fst r else min_eval in
     let best_move' := if upd then Some move else best_move in
     let beta' := ScoreOrd.min beta (fst r) in
     if (beta' <=? alpha)%score then Some ((min_eval', best_move'), b)
     else min_loop child rest alpha beta' min_eval' best_move' b).
Proof.
  unfold returns. intros Hpop Hc.
  simpl. unfold bind, do_push, do_pop. rewrite Hc, Hpop. simpl.
  destruct (_ <=? _)%score; reflexivity.
Qed.

Lemma plain_max_loop_step child move rest max_eval best_move b r :
  pop (push b move) = Some b ->
  returns child (push b move) r ->
  plain_max_loop child (move :: rest) max_eval best_move b =
    (let upd := (fst r >? max_eval)%score in
     plain_max_loop child rest (if upd then fst r else max_eval)
       (if upd then Some move else best_move) b).
Proof.
  unfold returns. intros Hpop Hc.
  simpl. unfold bind, do_push, do_pop. rewrite Hc, Hpop. reflexivity.
Qed.

Lemma plain_min_loop_step child move rest min_eval best_move b r :
  pop (push b move) = Some b ->
  returns child (push b move) r ->
  plain_min_loop child (move :: rest) min_eval best_move b =
    (let upd := (fst r <? min_eval)%score in
     plain_min_loop child rest (if upd then fst r else min_eval)
       (if upd then Some move else best_move) b).
Proof.
  unfold returns. intros Hpop Hc.
  simpl. unfold bind, do_push, do_pop. rewrite Hc, Hpop. reflexivity.
Qed.

(** The two ways out of [minimax] before the loop, and the way in. *)
Lemma minimax_depth_0 alpha beta is_maximizing b :
  minimax 0 alpha beta is_maximizing b = Some ((Fin (evaluate_board b), None), b).
Proof. reflexivity. Qed.

Lemma minimax_game_over depth alpha beta is_maximizing b :
  is_game_over b = true ->
  minimax depth alpha beta is_maximizing b
  = Some ((Fin (evaluate_board b), None), b).
Proof.
  intros Hover. destruct depth as [|d]; [reflexivity|].
  simpl. unfold bind, ask. rewrite Hover. reflexivity.
Qed.

Lemma minimax_unfold d alpha beta is_maximizing b :
  is_game_over b = false ->
  minimax (S d) alpha beta is_maximizing b =
    if is_maximizing then
      max_loop (fun a b' => minimax d a b' false)
        (legal_moves b) alpha beta NegInf None b
    else
      min_loop (fun a b' => minimax d a b' true)
        (legal_moves b) alpha beta PosInf None b.
Proof.
  intros Hover. simpl. unfold bind, ask. rewrite Hover.
  destruct is_maximizing; reflexivity.
Qed.

Lemma plain_minimax_game_over depth is_maximizing b :
  is_game_over b = true ->
  plain_minimax depth is_maximizing b
  = Some ((Fin (evaluate_board b), None), b).
Proof.
  intros Hover. destruct depth as [|d]; [reflexivity|].
  simpl. unfold bind, ask. rewrite Hover. reflexivity.
Qed.

Lemma plain_minimax_unfold d is_maximizing b :
  is_game_over b = false ->
  plain_minimax (S d) is_maximizing b =
    if is_maximizing then
      plain_max_loop (plain_minimax d false) (legal_moves b) NegInf None b
    else
      plain_min_loop (plain_minimax d true) (legal_moves b) PosInf None b.
Proof.
  intros Hover. simpl. unfold bind, ask. rewrite Hover.
  destruct is_maximizing; reflexivity.
Qed.

End Steps.

(** ** The board after a search *)

Section Restores.
Context {E : RulesEngine}.
Hypothesis Hrev : Reversible E.

Section Loops.
Variable b : Board.
Variable child : Score -> Score -> M SearchResult.

(** Every move of the list is legal on [b], and the child search comes
    back from it with the board it was given. *)
Definition child_returns (moves : list Move) : Prop :=
  forall m, In m moves ->
    In m (legal_moves b) /\
    forall alpha beta, exists r, returns (child alpha beta) (push b m) r.

Lemma child_returns_tail mv rest :
  child_returns (mv :: rest) -> child_returns rest.
Proof. intros H m Hm. apply H. right. exact Hm. Qed.

Lemma max_loop_restores moves :
  child_returns moves ->
  forall alpha beta max_eval best_move,
  exists r, returns (max_loop child moves alpha beta max_eval best_move) b r.
Proof using Hrev.
  induction moves as [|mv rest IH]; intros Hc alpha beta max_eval best_move.
  - eexists; reflexivity.
  - destruct (Hc mv (or_introl eq_refl)) as [Hin Hch].
    destruct (Hch alpha beta) as [r Hr].
    unfold returns.
    rewrite (max_loop_step _ _ _ _ _ _ _ _ r (Hrev b mv Hin) Hr).
    cbv zeta. destruct (_ <=? _)%score.
    + eexists; reflexivity.
    + apply IH. eapply child_returns_tail; exact Hc.
Qed.

Lemma min_loop_restores moves :
  child_returns moves ->
  forall alpha beta min_eval best_move,
  exists r, returns (min_loop child moves alpha beta min_eval best_move) b r.
Proof using Hrev.
  induction moves as [|mv rest IH]; intros Hc alpha beta min_eval best_move.
  - eexists; reflexivity.
  - destruct (Hc mv (or_introl eq_refl)) as [Hin Hch].
    destruct (Hch alpha beta) as [r Hr].
    unfold returns.
    rewrite (min_loop_step _ _ _ _ _ _ _ _ r (Hrev b mv Hin) Hr).
    cbv zeta. destruct (_ <=? _)%score.
    + eexists; reflexivity.
    + apply IH. eapply child_returns_tail; exact Hc.
Qed.
End Loops.

Lemma minimax_returns :
  forall d alpha beta is_maximizing b,
  exists r, returns (minimax d alpha beta is_maximizing) b r.
Proof using Hrev.
  induction d as [|d IH]; intros alpha beta mx b.
  - eexists; apply minimax_depth_0.
  - destruct (is_game_over b) eqn:Hover.
    + eexists; apply minimax_game_over; exact Hover.
    + unfold returns. rewrite (minimax_unfold _ _ _ _ _ Hover).
      destruct mx.
      * apply max_loop_restores.
        intros m Hm; split; [exact Hm|]. intros a c; apply IH.
      * apply min_loop_restores.
        intros m Hm; split; [exact Hm|]. intros a c; apply IH.
Qed.

End Restores.

(** ** Pruning does not change the result *)

Section Pruning.
Context {E : RulesEngine}.
Hypothesis Hrev : Reversible E.

Section Loops.
Variable b : Board.
Variable child : Score -> Score -> M SearchResult.
Variable pchild : M SearchResult.

(** The searches below each move of the list: the plain one gives a score,
    and the pruned one answers within any proper window. *)
Definition child_within (moves : list Move) : Prop :=
  forall m, In m moves ->
    In m (legal_moves b) /\
    exists v, returns pchild (push b m) v /\
      forall alpha beta, (alpha < beta)%score ->
        exists r, returns (child alpha beta) (push b m) r
                  /\ within alpha beta (fst r) (fst v).

Lemma child_within_tail mv rest :
  child_within (mv :: rest) -> child_within rest.
Proof. intros H m Hm. apply H. right. exact Hm. Qed.

Lemma plain_max_loop_returns moves :
  child_within moves ->
  forall max_eval best_move,
  exists v, returns (plain_max_loop pchild moves max_eval best_move) b v
            /\ (max_eval <= fst v)%score.
Proof using Hrev.
  induction moves as [|mv rest IH]; intros Hc max_eval best_move.
  - eexists; split; [reflexivity|]. apply ScoreFacts.le_refl.
  - destruct (Hc mv (or_introl eq_refl)) as [Hin [v [Hv _]]].
    unfold returns.
    rewrite (plain_max_loop_step _ _ _ _ _ _ v (Hrev b mv Hin) Hv).
    cbv zeta.
    destruct (IH (child_within_tail _ _ Hc)
                (if (fst v >? max_eval)%score then fst v else max_eval)
                (if (fst v >? max_eval)%score then Some mv else best_move))
      as [w [Hw Hle]].
    exists w; split; [exact Hw|].
    destruct v as [t ?], w as [V ?]; simpl in *.
    clear - Hle. score_solve.
Qed.

Lemma plain_min_loop_returns moves :
  child_within moves ->
  forall min_eval best_move,
  exists v, returns (plain_min_loop pchild moves min_eval best_move) b v
            /\ (fst v <= min_eval)%score.
Proof using Hrev.
  induction moves as [|mv rest IH]; intros Hc min_eval best_move.
  - eexists; split; [reflexivity|]. apply ScoreFacts.le_refl.
  - destruct (Hc mv (or_introl eq_refl)) as [Hin [v [Hv _]]].
    unfold returns.
    rewrite (plain_min_loop_step _ _ _ _ _ _ v (Hrev b mv Hin) Hv).
    cbv zeta.
    destruct (IH (child_within_tail _ _ Hc)
                (if (fst v <? min_eval)%score then fst v else min_eval)
                (if (fst v <? min_eval)%score then Some mv else best_move))
      as [w [Hw Hle]].
    exists w; split; [exact Hw|].
    destruct v as [t ?], w as [V ?]; simpl in *.
    clear - Hle. score_solve.
Qed.

(** Once the running maximum is [inf] nothing replaces it. *)
Lemma plain_max_loop_top moves :
  child_within moves ->
  forall best_move,
  returns (plain_max_loop pchild moves PosInf best_move) b (PosInf, best_move).
Proof using Hrev.
  induction moves as [|mv rest IH]; intros Hc best_move.
  - reflexivity.
  - destruct (Hc mv (or_introl eq_refl)) as [Hin [v [Hv _]]].
    unfold returns.
    rewrite (plain_max_loop_step _ _ _ _ _ _ v (Hrev b mv Hin) Hv).
    cbv zeta. unfold ScoreOrd.gtb.
    replace (PosInf <? fst v)%score with false by reflexivity.
    apply IH. eapply child_within_tail; exact Hc.
Qed.

Lemma plain_min_loop_bottom moves :
  child_within moves ->
  forall best_move,
  returns (plain_min_loop pchild moves NegInf best_move) b (NegInf, best_move).
Proof using Hrev.
  induction moves as [|mv rest IH]; intros Hc best_move.
  - reflexivity.
  - destruct (Hc mv (or_introl eq_refl)) as [Hin [v [Hv _]]].
    unfold returns.
    rewrite (plain_min_loop_step _ _ _ _ _ _ v (Hrev b mv Hin) Hv).
    cbv zeta.
    replace (fst v <? NegInf)%score with false
      by (destruct (fst v); reflexivity).
    apply IH. eapply child_within_tail; exact Hc.
Qed.

(** The maximizing loop, started anywhere: [max_eval] of the pruned loop
    lies between the running maximum [M] of the plain loop and [alpha]. *)
Lemma max_loop_within moves :
  child_within moves ->
  forall alpha beta max_eval M best_move BM,
  (alpha < beta)%score -> (M <= max_eval)%score -> (max_eval <= alpha)%score ->
  exists r v,
    returns (max_loop child moves alpha beta max_eval best_move) b r
    /\ returns (plain_max_loop pchild moves M BM) b v
    /\ within alpha beta (fst r) (fst v)
    /\ (M <= fst v)%score.
Proof using Hrev.
  induction moves as [|mv rest IH];
    intros Hc alpha beta max_eval M best_move BM Hab HMm Hma.
  - exists (max_eval, best_move), (M, BM).
    split; [reflexivity|]. split; [reflexivity|].
    simpl. clear - Hab HMm Hma. unfold within. score_solve.
  - destruct (Hc mv (or_introl eq_refl)) as [Hin [v [Hv Hch]]].
    destruct (Hch alpha beta Hab) as [r [Hr Hw]].
    unfold returns.
    rewrite (max_loop_step _ _ _ _ _ _ _ _ r (Hrev b mv Hin) Hr).
    rewrite (plain_max_loop_step _ _ _ _ _ _ v (Hrev b mv Hin) Hv).
    cbv zeta.
    destruct r as [s om], v as [t on]; simpl fst in *.
    destruct (beta <=? ScoreOrd.max alpha s)%score eqn:Hbrk.
    + destruct (plain_max_loop_returns rest (child_within_tail _ _ Hc)
                  (if (t >? M)%score then t else M)
                  (if (t >? M)%score then Some mv else BM))
        as [[V oV] [HV Hle]].
      eexists; exists (V, oV).
      split; [reflexivity|]. split; [exact HV|].
      simpl fst in *.
      clear - Hab HMm Hma Hw Hbrk Hle. unfold within in *.
      score_solve.
    + assert (H1 : (ScoreOrd.max alpha s < beta)%score)
        by (clear - Hbrk; score_solve).
      assert (H2 : ((if (t >? M)%score then t else M)
                    <= (if (s >? max_eval)%score then s else max_eval))%score)
        by (clear - Hab HMm Hma Hw H1; unfold within in *; score_solve).
      assert (H3 : ((if (s >? max_eval)%score then s else max_eval)
                    <= ScoreOrd.max alpha s)%score)
        by (clear - Hma; score_solve).
      destruct (IH (child_within_tail _ _ Hc) _ _ _ _
                  (if (s >? max_eval)%score then Some mv else best_move)
                  (if (t >? M)%score then Some mv else BM) H1 H2 H3)
        as [[s' o'] [[V oV] [Hr' [Hv' [Hw' Hle]]]]].
      exists (s', o'), (V, oV).
      split; [exact Hr'|]. split; [exact Hv'|].
      simpl fst in *.
      clear - Hab HMm Hma Hw Hbrk Hw' Hle. unfold within in *.
      score_solve.
Qed.

(** The minimizing loop, its mirror image. *)
Lemma min_loop_within moves :
  child_within moves ->
  forall alpha beta min_eval M best_move BM,
  (alpha < beta)%score -> (min_eval <= M)%score -> (beta <= min_eval)%score ->
  exists r v,
    returns (min_loop child moves alpha beta min_eval best_move) b r
    /\ returns (plain_min_loop pchild moves M BM) b v
    /\ within alpha beta (fst r) (fst v)
    /\ (fst v <= M)%score.
Proof using Hrev.
  induction moves as [|mv rest IH];
    intros Hc alpha beta min_eval M best_move BM Hab HmM Hbm.
  - exists (min_eval, best_move), (M, BM).
    split; [reflexivity|]. split; [reflexivity|].
    simpl. clear - Hab HmM Hbm. unfold within. score_solve.
  - destruct (Hc mv (or_introl eq_refl)) as [Hin [v [Hv Hch]]].
    destruct (Hch alpha beta Hab) as [r [Hr Hw]].
    unfold returns.
    rewrite (min_loop_step _ _ _ _ _ _ _ _ r (Hrev b mv Hin) Hr).
    rewrite (plain_min_loop_step _ _ _ _ _ _ v (Hrev b mv Hin) Hv).
    cbv zeta.
    destruct r as [s om], v as [t on]; simpl fst in *.
    destruct (ScoreOrd.min beta s <=? alpha)%score eqn:Hbrk.
    + destruct (plain_min_loop_returns rest (child_within_tail _ _ Hc)
                  (if (t <? M)%score then t else M)
                  (if (t <? M)%score then Some mv else BM))
        as [[V oV] [HV Hle]].
      eexists; exists (V, oV).
      split; [reflexivity|]. split; [exact HV|].
      simpl fst in *.
      clear - Hab HmM Hbm Hw Hbrk Hle. unfold within in *.
      score_solve.
    + assert (H1 : (alpha < ScoreOrd.min beta s)%score)
        by (clear - Hbrk; score_solve).
      assert (H2 : ((if (s <? min_eval)%score then s else min_eval)
                    <= (if (t <? M)%score then t else M))%score)
        by (clear - Hab HmM Hbm Hw H1; unfold within in *; score_solve).
      assert (H3 : (ScoreOrd.min beta s
                    <= (if (s <? min_eval)%score then s else min_eval))%score)
        by (clear - Hbm; score_solve).
      destruct (IH (child_within_tail _ _ Hc) _ _ _ _
                  (if (s <? min_eval)%score then Some mv else best_move)
                  (if (t <? M)%score then Some mv else BM) H1 H2 H3)
        as [[s' o'] [[V oV] [Hr' [Hv' [Hw' Hle]]]]].
      exists (s', o'), (V, oV).
      split; [exact Hr'|]. split; [exact Hv'|].
      simpl fst in *.
      clear - Hab HmM Hbm Hw Hbrk Hw' Hle. unfold within in *.
      score_solve.
Qed.

(** At the root the window is open above: the running maximum of the
    pruned loop is [alpha] itself, and both loops go through the same
    states, so that they end on the same score and the same move. *)
Lemma max_loop_root moves :
  child_within moves ->
  forall alpha best_move,
  (alpha < PosInf)%score ->
  exists r,
    returns (max_loop child moves alpha PosInf alpha best_move) b r
    /\ returns (plain_max_loop pchild moves alpha best_move) b r.
Proof using Hrev.
  induction moves as [|mv rest IH]; intros Hc alpha best_move Ha.
  - eexists; split; reflexivity.
  - destruct (Hc mv (or_introl eq_refl)) as [Hin [v [Hv Hch]]].
    destruct (Hch alpha PosInf Ha) as [r [Hr Hw]].
    unfold returns.
    rewrite (max_loop_step _ _ _ _ _ _ _ _ r (Hrev b mv Hin) Hr).
    rewrite (plain_max_loop_step _ _ _ _ _ _ v (Hrev b mv Hin) Hv).
    cbv zeta.
    destruct r as [s om], v as [t on]; simpl fst in *.
    assert (Hupd : (s >? alpha)%score = (t >? alpha)%score)
      by (clear - Ha Hw; unfold within in *;
          destruct (s >? alpha)%score eqn:T1, (t >? alpha)%score eqn:T2;
          try reflexivity; exfalso; score_solve).
    assert (Hval : (t >? alpha)%score = true -> s = t)
      by (clear - Ha Hw; unfold within in *; score_solve).
    assert (Hmax : ScoreOrd.max alpha s
                   = if (t >? alpha)%score then t else alpha).
    { unfold ScoreOrd.max. rewrite Hupd.
      destruct (t >? alpha)%score; [apply Hval|]; reflexivity. }
    rewrite Hmax, Hupd.
    destruct (t >? alpha)%score eqn:Ht.
    + rewrite (Hval eq_refl).
      destruct (PosInf <=? t)%score eqn:Htop.
      * assert (t = PosInf) as -> by (destruct t; try discriminate; reflexivity).
        eexists; split; [reflexivity|].
        apply plain_max_loop_top. eapply child_within_tail; exact Hc.
      * apply IH; [eapply child_within_tail; exact Hc|].
        destruct t; try discriminate; reflexivity.
    + destruct (PosInf <=? alpha)%score eqn:Htop.
      * exfalso. clear - Ha Htop. destruct alpha; discriminate.
      * apply IH; [eapply child_within_tail; exact Hc|exact Ha].
Qed.

Lemma min_loop_root moves :
  child_within moves ->
  forall beta best_move,
  (NegInf < beta)%score ->
  exists r,
    returns (min_loop child moves NegInf beta beta best_move) b r
    /\ returns (plain_min_loop pchild moves beta best_move) b r.
Proof using Hrev.
  induction moves as [|mv rest IH]; intros Hc beta best_move Hb.
  - eexists; split; reflexivity.
  - destruct (Hc mv (or_introl eq_refl)) as [Hin [v [Hv Hch]]].
    destruct (Hch NegInf beta Hb) as [r [Hr Hw]].
    unfold returns.
    rewrite (min_loop_step _ _ _ _ _ _ _ _ r (Hrev b mv Hin) Hr).
    rewrite (plain_min_loop_step _ _ _ _ _ _ v (Hrev b mv Hin) Hv).
    cbv zeta.
    destruct r as [s om], v as [t on]; simpl fst in *.
    assert (Hupd : (s <? beta)%score = (t <? beta)%score)
      by (clear - Hb Hw; unfold within in *;
          destruct (s <? beta)%score eqn:T1, (t <? beta)%score eqn:T2;
          try reflexivity; exfalso; score_solve).
    assert (Hval : (t <? beta)%score = true -> s = t)
      by (clear - Hb Hw; unfold within in *; score_solve).
    assert (Hmin : ScoreOrd.min beta s
                   = if (t <? beta)%score then t else beta).
    { unfold ScoreOrd.min. rewrite Hupd.
      destruct (t <? beta)%score; [apply Hval|]; reflexivity. }
    rewrite Hmin, Hupd.
    destruct (t <? beta)%score eqn:Ht.
    + rewrite (Hval eq_refl).
      destruct (t <=? NegInf)%score eqn:Hbot.
      * assert (t = NegInf) as -> by (destruct t; try discriminate; reflexivity).
        eexists; split; [reflexivity|].
        apply plain_min_loop_bottom. eapply child_within_tail; exact Hc.
      * apply IH; [eapply child_within_tail; exact Hc|].
        destruct t; try discriminate; reflexivity.
    + destruct (beta <=? NegInf)%score eqn:Hbot.
      * exfalso. clear - Hb Hbot. destruct beta; discriminate.
      * apply IH; [eapply child_within_tail; exact Hc|exact Hb].
Qed.

End Loops.

(** Pruned and plain search at every node: both return, and the pruned
    score is within its window of the plain one. *)
Lemma minimax_within :
  forall d is_maximizing b,
  exists v, returns (plain_minimax d is_maximizing) b v
    /\ forall alpha beta, (alpha < beta)%score ->
         exists r, returns (minimax d alpha beta is_maximizing) b r
                   /\ within alpha beta (fst r) (fst v).
Proof using Hrev.
  assert (Hleaf : forall z alpha beta, within alpha beta (Fin z) (Fin z)).
  { intros z alpha beta. unfold within. generalize (Fin z). score_solve. }
  induction d as [|d IH]; intros mx b.
  - eexists; split; [reflexivity|]. intros alpha beta _.
    eexists; split; [reflexivity|]. apply Hleaf.
  - destruct (is_game_over b) eqn:Hover.
    + eexists; split; [apply plain_minimax_game_over; exact Hover|].
      intros alpha beta _.
      eexists; split; [apply minimax_game_over; exact Hover|]. apply Hleaf.
    + assert (Hc : forall mx',
                child_within b (fun a c => minimax d a c mx')
                  (plain_minimax d mx') (legal_moves b)).
      { intros mx' m Hm. split; [exact Hm|]. apply IH. }
      unfold returns. rewrite (plain_minimax_unfold _ _ _ Hover).
      destruct mx.
      * destruct (plain_max_loop_returns b _ _ _ (Hc false) NegInf None)
          as [v [Hv _]].
        exists v; split; [exact Hv|]. intros alpha beta Hab.
        rewrite (minimax_unfold _ _ _ _ _ Hover).
        destruct (max_loop_within b _ _ _ (Hc false) alpha beta NegInf NegInf
                    None None Hab) as [r [v' [Hr [Hv' [Hw _]]]]];
          [reflexivity|reflexivity|].
        exists r; split; [exact Hr|].
        unfold returns in *. rewrite Hv in Hv'. injection Hv' as <-. exact Hw.
      * destruct (plain_min_loop_returns b _ _ _ (Hc true) PosInf None)
          as [v [Hv _]].
        exists v; split; [exact Hv|]. intros alpha beta Hab.
        rewrite (minimax_unfold _ _ _ _ _ Hover).
        destruct (min_loop_within b _ _ _ (Hc true) alpha beta PosInf PosInf
                    None None Hab) as [r [v' [Hr [Hv' [Hw _]]]]];
          [reflexivity|destruct beta; reflexivity|].
        exists r; split; [exact Hr|].
        unfold returns in *. rewrite Hv in Hv'. injection Hv' as <-. exact Hw.
Qed.

(** With the full window the pruned search is the plain one, result for
    result. *)
Lemma minimax_full_window :
  forall d is_maximizing b,
  minimax d NegInf PosInf is_maximizing b = plain_minimax d is_maximizing b.
Proof using Hrev.
  intros [|d] mx b; [reflexivity|].
  destruct (is_game_over b) eqn:Hover.
  - rewrite minimax_game_over, plain_minimax_game_over by exact Hover.
    reflexivity.
  - rewrite (minimax_unfold _ _ _ _ _ Hover), (plain_minimax_unfold _ _ _ Hover).
    assert (Hc : forall mx',
              child_within b (fun a c => minimax d a c mx')
                (plain_minimax d mx') (legal_moves b)).
    { intros mx' m Hm. split; [exact Hm|]. apply minimax_within. }
    destruct mx.
    + destruct (max_loop_root b _ _ _ (Hc false) NegInf None eq_refl)
        as [r [H1 H2]].
      unfold returns in *. rewrite H1, H2. reflexivity.
    + destruct (min_loop_root b _ _ _ (Hc true) PosInf None eq_refl)
        as [r [H1 H2]].
      unfold returns in *. rewrite H1, H2. reflexivity.
Qed.

End Pruning.

(** ** The move of a search below the leaves *)

Section Found.
Context {E : RulesEngine}.
Hypothesis Hrev : Reversible E.
Hypothesis Hcons : Consistent E.

Section Loops.
Variable b : Board.
Variable child : Score -> Score -> M SearchResult.

Definition child_finite (moves : list Move) : Prop :=
  forall m, In m moves ->
    In m (legal_moves b) /\
    forall alpha beta,
      exists r, returns (child alpha beta) (push b m) r /\ finite r.

Lemma child_finite_tail mv rest :
  child_finite (mv :: rest) -> child_finite rest.
Proof. intros H m Hm. apply H. right. exact Hm. Qed.

Lemma max_loop_found moves :
  child_finite moves ->
  forall alpha beta max_eval best_move,
  (max_eval = NegInf /\ moves <> []) \/ found b (max_eval, best_move) ->
  exists r, returns (max_loop child moves alpha beta max_eval best_move) b r
            /\ found b r.
Proof using Hrev.
  induction moves as [|mv rest IH];
    intros Hc alpha beta max_eval best_move Hstart.
  - destruct Hstart as [[_ Hne]|Hf]; [congruence|].
    eexists; split; [reflexivity|exact Hf].
  - destruct (Hc mv (or_introl eq_refl)) as [Hin Hch].
    destruct (Hch alpha beta) as [[s om] [Hr [z Hz]]].
    simpl in Hz; subst s.
    unfold returns.
    rewrite (max_loop_step _ _ _ _ _ _ _ _ _ (Hrev b mv Hin) Hr).
    cbv zeta. simpl fst.
    assert (Hnext : found b
              (if (Fin z >? max_eval)%score then Fin z else max_eval,
               if (Fin z >? max_eval)%score then Some mv else best_move)).
    { destruct Hstart as [[-> _]|Hf].
      - exists z, mv. split; [reflexivity|exact Hin].
      - destruct (Fin z >? max_eval)%score; [|exact Hf].
        exists z, mv. split; [reflexivity|exact Hin]. }
    destruct (_ <=? _)%score.
    + eexists; split; [reflexivity|exact Hnext].
    + apply IH; [eapply child_finite_tail; exact Hc|right; exact Hnext].
Qed.

Lemma min_loop_found moves :
  child_finite moves ->
  forall alpha beta min_eval best_move,
  (min_eval = PosInf /\ moves <> []) \/ found b (min_eval, best_move) ->
  exists r, returns (min_loop child moves alpha beta min_eval best_move) b r
            /\ found b r.
Proof using Hrev.
  induction moves as [|mv rest IH];
    intros Hc alpha beta min_eval best_move Hstart.
  - destruct Hstart as [[_ Hne]|Hf]; [congruence|].
    eexists; split; [reflexivity|exact Hf].
  - destruct (Hc mv (or_introl eq_refl)) as [Hin Hch].
    destruct (Hch alpha beta) as [[s om] [Hr [z Hz]]].
    simpl in Hz; subst s.
    unfold returns.
    rewrite (min_loop_step _ _ _ _ _ _ _ _ _ (Hrev b mv Hin) Hr).
    cbv zeta. simpl fst.
    assert (Hnext : found b
              (if (Fin z <? min_eval)%score then Fin z else min_eval,
               if (Fin z <? min_eval)%score then Some mv else best_move)).
    { destruct Hstart as [[-> _]|Hf].
      - exists z, mv. split; [reflexivity|exact Hin].
      - destruct (Fin z <? min_eval)%score; [|exact Hf].
        exists z, mv. split; [reflexivity|exact Hin]. }
    destruct (_ <=? _)%score.
    + eexists; split; [reflexivity|exact Hnext].
    + apply IH; [eapply child_finite_tail; exact Hc|right; exact Hnext].
Qed.
End Loops.

Lemma found_finite b r : found b r -> finite r.
Proof. intros [z [m [-> _]]]. exists z. reflexivity. Qed.

Lemma minimax_found :
  forall d alpha beta is_maximizing b,
  exists r, returns (minimax d alpha beta is_maximizing) b r
    /\ finite r
    /\ (d <> O -> is_game_over b = false -> found b r).
Proof using Hrev Hcons.
  induction d as [|d IH]; intros alpha beta mx b.
  - eexists; split; [apply minimax_depth_0|].
    split; [eexists; reflexivity|congruence].
  - destruct (is_game_over b) eqn:Hover.
    + eexists; split; [apply minimax_game_over; exact Hover|].
      split; [eexists; reflexivity|congruence].
    + assert (Hc : forall mx', child_finite b (fun a c => minimax d a c mx')
                                 (legal_moves b)).
      { intros mx' m Hm. split; [exact Hm|]. intros a c.
        destruct (IH a c mx' (push b m)) as [r [Hr [Hf _]]].
        exists r; split; assumption. }
      unfold returns. rewrite (minimax_unfold _ _ _ _ _ Hover).
      destruct mx.
      * destruct (max_loop_found b _ _ (Hc false) alpha beta NegInf None)
          as [r [Hr Hf]]; [left; split; [reflexivity|apply Hcons; exact Hover]|].
        exists r. split; [exact Hr|].
        split; [eapply found_finite; exact Hf|intros _ _; exact Hf].
      * destruct (min_loop_found b _ _ (Hc true) alpha beta PosInf None)
          as [r [Hr Hf]]; [left; split; [reflexivity|apply Hcons; exact Hover]|].
        exists r. split; [exact Hr|].
        split; [eapply found_finite; exact Hf|intros _ _; exact Hf].
Qed.

End Found.

(** ** A window given upside down *)

Section Inverted.
Context {E : RulesEngine}.

Lemma max_loop_inverted child mv rest alpha beta b c :
  (beta < alpha)%score ->
  pop (push b mv) = Some b ->
  returns (child alpha beta) (push b mv) c ->
  max_loop child (mv :: rest) alpha beta NegInf None b
  = Some ((fst c, first_move true (fst c) mv), b).
Proof.
  intros Hba Hpop Hc.
  rewrite (max_loop_step _ _ _ _ _ _ _ _ _ Hpop Hc). cbv zeta.
  destruct c as [s om]; simpl fst. unfold first_move.
  replace (beta <=? ScoreOrd.max alpha s)%score with true
    by (symmetry; clear - Hba; score_solve).
  destruct (s >? NegInf)%score eqn:Hs; [reflexivity|].
  destruct s; try discriminate. reflexivity.
Qed.

Lemma min_loop_inverted child mv rest alpha beta b c :
  (beta < alpha)%score ->
  pop (push b mv) = Some b ->
  returns (child alpha beta) (push b mv) c ->
  min_loop child (mv :: rest) alpha beta PosInf None b
  = Some ((fst c, first_move false (fst c) mv), b).
Proof.
  intros Hba Hpop Hc.
  rewrite (min_loop_step _ _ _ _ _ _ _ _ _ Hpop Hc). cbv zeta.
  destruct c as [s om]; simpl fst. unfold first_move.
  replace (ScoreOrd.min beta s <=? alpha)%score with true
    by (symmetry; clear - Hba; score_solve).
  destruct (s <? PosInf)%score eqn:Hs; [reflexivity|].
  destruct s; try discriminate. reflexivity.
Qed.

End Inverted.

(** ** The range of [evaluate_board] *)

Section Evaluation.
Context {E : RulesEngine}.

Lemma dict_get_piece_values (t : PieceType) :
  0 <= dict_get piece_values t 0 <= 9.
Proof. destruct t; simpl; lia. Qed.

Lemma add_square_bound b score square :
  Z.abs (add_square b score square - score) <= 9.
Proof.
  unfold add_square. destruct (piece_at b square) as [p|]; [|lia].
  cbv zeta. pose proof (dict_get_piece_values (piece_type p)).
  destruct (Bool.eqb (color p) WHITE); lia.
Qed.

Lemma fold_add_square_bound b squares :
  forall score,
  Z.abs (fold_left (add_square b) squares score)
  <= Z.abs score + 9 * Z.of_nat (List.length squares).
Proof.
  induction squares as [|sq squares IH]; intros score.
  - simpl. lia.
  - cbn [fold_left List.length]. specialize (IH (add_square b score sq)).
    pose proof (add_square_bound b score sq). lia.
Qed.

Lemma material_bound b : Z.abs (material b) <= 576.
Proof.
  unfold material.
  pose proof (fold_add_square_bound b SQUARES 0) as H.
  replace (List.length SQUARES) with 64%nat in H
    by (unfold SQUARES; rewrite length_seq; reflexivity).
  lia.
Qed.

Lemma evaluate_board_checkmate b :
  is_checkmate b = true ->
  evaluate_board b = if turn b then -1000 else 1000.
Proof. unfold evaluate_board. intros ->. reflexivity. Qed.

Lemma evaluate_board_no_checkmate b :
  is_checkmate b = false -> Z.abs (evaluate_board b) <= 576.
Proof.
  unfold evaluate_board. intros ->.
  destruct (is_stalemate b); [simpl; lia|apply material_bound].
Qed.

End Evaluation.

(** ** The engines given by a table *)

Module TableFacts.
Import Table Examples.

Lemma engine_reversible table : Reversible (engine table).
Proof. intros [h st] m _. reflexivity. Qed.

Lemma game_consistent : Consistent game_engine.
Proof.
  intros [h st]. simpl.
  do 7 (destruct h as [|h]; simpl; try discriminate).
Qed.

End TableFacts.

(** * The claims *)

Section Claims.
Context {E : RulesEngine}.

(** C1 (the claim fails on the code).  The flag [play_game] passes to the
  search is never the side to move: the search is only invoked on Black's
  turn, and always with [is_maximizing] at its default, [True], which is
  White.  So no mode and board make it the computer's turn with the flag
  equal to the side to move. *)
Theorem search_flag_is_not_side_to_move (mode : string) (b : Board) :
is_ai_turn mode b
&& Bool.eqb (is_maximizing play_game_search_args) (turn b) = false.
Proof.
unfold is_ai_turn. simpl is_maximizing.
destruct (turn b), (String.eqb mode "hvr"), (String.eqb mode "hvm");
  reflexivity.
Qed.

(** C2.  With a rules engine whose [pop] undoes [push], [minimax] called with
  [alpha = -inf] and [beta = inf] returns the same score and the same move
  as plain minimax without pruning, at every depth, for either side and on
  every board. *)
Theorem pruning_equivalence :
Reversible E ->
forall (d : nat) (is_maximizing : bool) (b : Board),
minimax d NegInf PosInf is_maximizing b = plain_minimax d is_maximizing b.
Proof. intros Hrev d mx b. apply minimax_full_window. exact Hrev. Qed.

(** C3.  At depth 0, or on a board that is game over, [minimax] returns
  [(evaluate_board(), None)] and leaves the board alone, whatever the
  bounds, the flag and the legal moves are.  Nothing is assumed of the
  engine: the result is the same for every enumeration of legal moves and
  even with a [pop] that always raises, so no move is enumerated, played or
  taken back. *)
Theorem minimax_leaf :
forall (d : nat) (alpha beta : Score) (is_maximizing : bool) (b : Board),
d = O \/ is_game_over b = true ->
minimax d alpha beta is_maximizing b
= Some ((Fin (evaluate_board b), None), b).
Proof.
intros d alpha beta mx b [-> | Hover].
- apply minimax_depth_0.
- apply minimax_game_over. exact Hover.
Qed.

(** C4.  With a rules engine whose [pop] undoes [push], [minimax] returns for
  every depth, window and flag, and the shared board after the call is the
  board before it. *)
Theorem minimax_restores_board :
Reversible E ->
forall (d : nat) (alpha beta : Score) (is_maximizing : bool) (b : Board),
exists r, minimax d alpha beta is_maximizing b = Some (r, b).
Proof. intros Hrev d alpha beta mx b. apply minimax_returns. exact Hrev. Qed.

(** C5.  On a checkmate position [evaluate_board] is -1000 when White is to
  move and 1000 when Black is to move, whatever stands on the board. *)
Theorem evaluate_checkmate :
forall b : Board,
is_checkmate b = true ->
evaluate_board b = if Bool.eqb (turn b) WHITE then -1000 else 1000.
Proof.
intros b H. rewrite (evaluate_board_checkmate b H).
destruct (turn b); reflexivity.
Qed.

(** The one drawn game [evaluate_board] knows: on a stalemate position (one
  that is not checkmate) it is exactly 0, whatever stands on the board. *)
Theorem evaluate_stalemate :
forall b : Board,
is_checkmate b = false -> is_stalemate b = true -> evaluate_board b = 0.
Proof. intros b Hm Hs. unfold evaluate_board. rewrite Hm, Hs. reflexivity. Qed.

(** C7, as amended.  Called with a depth above 0 on a board that is not game
  over and has no legal move, [minimax] returns normally: [(-inf, None)]
  when maximizing and [(inf, None)] when minimizing, the board untouched.
  Nothing is signalled. *)
Theorem minimax_no_legal_move :
forall (d : nat) (alpha beta : Score) (is_maximizing : bool) (b : Board),
is_game_over b = false -> legal_moves b = [] ->
minimax (S d) alpha beta is_maximizing b
= Some ((if is_maximizing then NegInf else PosInf, None), b).
Proof.
intros d alpha beta mx b Hover Hnone.
rewrite (minimax_unfold _ _ _ _ _ Hover), Hnone.
destruct mx; reflexivity.
Qed.

(** C8, as amended.  Called with [alpha > beta], [minimax] does not fail:
  with a rules engine whose [pop] undoes [push] it returns a result and
  leaves the board as it was.  The result is the leaf evaluation at depth 0
  or on a game-over board; otherwise the bounds go unchanged to the search
  below the first legal move, whose score is returned, and the loop stops
  there. *)
Theorem minimax_inverted_window :
Reversible E ->
forall (d : nat) (alpha beta : Score) (is_maximizing : bool) (b : Board),
(beta < alpha)%score ->
exists r,
  minimax d alpha beta is_maximizing b = Some (r, b)
  /\ (d = O \/ is_game_over b = true -> r = (Fin (evaluate_board b), None))
  /\ (forall d' mv rest,
        d = S d' -> is_game_over b = false -> legal_moves b = mv :: rest ->
        exists c,
          minimax d' alpha beta (negb is_maximizing) (push b mv)
          = Some (c, push b mv)
          /\ r = (fst c, first_move is_maximizing (fst c) mv)).
Proof.
intros Hrev d alpha beta mx b Hba.
destruct (minimax_returns Hrev d alpha beta mx b) as [r Hr].
unfold returns in Hr. exists r. split; [exact Hr|]. split.
- intros [-> | Hover].
  + rewrite minimax_depth_0 in Hr. congruence.
  + rewrite (minimax_game_over _ _ _ _ _ Hover) in Hr. congruence.
- intros d' mv rest -> Hover Hmoves.
  destruct (minimax_returns Hrev d' alpha beta (negb mx) (push b mv))
    as [c Hc].
  exists c. split; [exact Hc|].
  assert (Hpop : pop (push b mv) = Some b)
    by (apply Hrev; rewrite Hmoves; left; reflexivity).
  rewrite (minimax_unfold _ _ _ _ _ Hover), Hmoves in Hr.
  destruct mx; simpl negb in Hc.
  + rewrite (max_loop_inverted _ _ _ _ _ _ c Hba Hpop Hc) in Hr. congruence.
  + rewrite (min_loop_inverted _ _ _ _ _ _ c Hba Hpop Hc) in Hr. congruence.
Qed.

(** C9.  [evaluate_board] is at most 1000 in magnitude on every board [b] and
  lies strictly between [-inf] and [inf]; on a checkmate position the
  magnitude is exactly 1000, on a position that is not checkmate (every
  position that is not game over is one) it is at most 64 * 9 = 576, and so
  strictly less than on any checkmate position. *)
Theorem terminal_dominance :
forall b mate other : Board,
is_checkmate mate = true -> is_checkmate other = false ->
Z.abs (evaluate_board b) <= 1000
/\ (NegInf < Fin (evaluate_board b))%score
/\ (Fin (evaluate_board b) < PosInf)%score
/\ Z.abs (evaluate_board mate) = 1000
/\ Z.abs (evaluate_board other) <= 576
/\ Z.abs (evaluate_board other) < Z.abs (evaluate_board mate).
Proof.
intros b mate other Hmate Hother.
assert (H1 : Z.abs (evaluate_board mate) = 1000).
{ rewrite (evaluate_board_checkmate mate Hmate). destruct (turn mate); reflexivity. }
pose proof (evaluate_board_no_checkmate other Hother) as H2.
assert (H3 : Z.abs (evaluate_board b) <= 1000).
{ destruct (is_checkmate b) eqn:Hb.
  - rewrite (evaluate_board_checkmate b Hb). destruct (turn b); simpl; lia.
  - pose proof (evaluate_board_no_checkmate b Hb). lia. }
repeat split; try assumption; try reflexivity. lia.
Qed.

(** C10.  With a rules engine whose [pop] undoes [push] and which gives every
  board that is not game over a legal move, [minimax] at a depth above 0 on
  a board that is not game over returns an integer score and a move, and
  the move is one of the board's legal moves. *)
Theorem minimax_move_present :
Reversible E -> Consistent E ->
forall (d : nat) (alpha beta : Score) (is_maximizing : bool) (b : Board),
(0 < d)%nat -> is_game_over b = false ->
exists (z : Z) (m : Move),
  minimax d alpha beta is_maximizing b = Some ((Fin z, Some m), b)
  /\ In m (legal_moves b).
Proof.
intros Hrev Hcons d alpha beta mx b Hd Hover.
destruct (minimax_found Hrev Hcons d alpha beta mx b) as [r [Hr [_ Hf]]].
destruct Hf as [z [m [-> Hin]]]; [lia|exact Hover|].
exists z, m. split; [exact Hr|exact Hin].
Qed.

End Claims.

(** ** The claims on the example positions *)

Module Checks.
Import Table Examples.

Local Ltac reversible := intros [h st] m _; reflexivity.
Local Ltac consistent :=
  intros [h st]; simpl;
  do 7 (destruct h as [|h]; simpl; try discriminate).

(** In the small game Black is to move and can mate at once with move 1.
    [play_game] searches for White and plays move 0; the search for Black
    finds the mate. *)
Example hvm_misses_mate :
  @turn game_engine start = BLACK
  /\ @is_ai_turn game_engine "hvm" start = true
  /\ @computer_turn game_engine "hvm" 0 start
     = Some (tt, @push game_engine start 0%nat)
  /\ @minimax game_engine 3 NegInf PosInf false start
     = Some ((Fin (-1000), Some 1%nat), start).
Proof. repeat split. Qed.

Lemma pruning_equivalence_witness :
  @minimax game_engine 3 NegInf PosInf false start
  = @plain_minimax game_engine 3 false start.
Proof. apply (@pruning_equivalence game_engine). reversible. Defined.

Lemma minimax_leaf_witness :
  @is_game_over game_engine (at_position 2) = true
  /\ @minimax game_engine 3 NegInf PosInf true (at_position 2)
     = Some ((Fin (@evaluate_board game_engine (at_position 2)), None),
             at_position 2).
Proof.
  split; [reflexivity|].
  apply (@minimax_leaf game_engine). right. reflexivity.
Defined.

Lemma minimax_restores_board_witness :
  exists r, @minimax game_engine 3 NegInf PosInf true start = Some (r, start).
Proof. apply (@minimax_restores_board game_engine). reversible. Defined.

Lemma evaluate_checkmate_witness :
  @is_checkmate game_engine (at_position 2) = true
  /\ @evaluate_board game_engine (at_position 2) = -1000.
Proof.
  split; [reflexivity|].
  apply (@evaluate_checkmate game_engine (at_position 2)). reflexivity.
Defined.

(** C6 (the claim fails on the code).  Position 6 of the small game is a
    finished, drawn game (king and bishop against king: insufficient
    material); it is neither checkmate nor stalemate, and [evaluate_board]
    counts the bishop: 3, where a drawn game is worth 0.  [minimax] sends
    every game-over board to [evaluate_board], whose stalemate branch scores
    a drawn game 0, and [play_game] calls every game-over board that is not
    checkmate a draw; the other drawn games are the case left out. *)
Lemma evaluate_insufficient_material :
  @is_game_over game_engine (at_position 6) = true
  /\ @is_checkmate game_engine (at_position 6) = false
  /\ @is_stalemate game_engine (at_position 6) = false
  /\ @evaluate_board game_engine (at_position 6) = 3
  /\ @evaluate_board game_engine (at_position 6) <> 0.
Proof. repeat split. discriminate. Qed.

Lemma evaluate_stalemate_witness :
  @material game_engine (at_position 4) = 9
  /\ @evaluate_board game_engine (at_position 4) = 0.
Proof.
  split; [reflexivity|].
  apply (@evaluate_stalemate game_engine (at_position 4)); reflexivity.
Defined.

(** C7, the claim as stated: on the engine that contradicts itself the
    search comes back with a result, it does not raise. *)
Lemma minimax_stuck_returns :
  @is_game_over stuck_engine start = false
  /\ @legal_moves stuck_engine start = []
  /\ @minimax stuck_engine 1 NegInf PosInf true start
     = Some ((NegInf, None), start)
  /\ @minimax stuck_engine 1 NegInf PosInf true start <> None.
Proof. repeat split. discriminate. Qed.

Lemma minimax_no_legal_move_witness :
  @minimax stuck_engine 3 NegInf PosInf false start
  = Some ((PosInf, None), start).
Proof.
  apply (@minimax_no_legal_move stuck_engine 2 NegInf PosInf false start);
    reflexivity.
Defined.

(** C8, the claim as stated: with [alpha = 1 > beta = 0] the search comes
    back with a result, it does not raise. *)
Lemma minimax_inverted_returns :
  (Fin 0 < Fin 1)%score
  /\ @minimax game_engine 3 (Fin 1) (Fin 0) true start
     = Some ((Fin 5, Some 0%nat), start)
  /\ @minimax game_engine 3 (Fin 1) (Fin 0) true start <> None.
Proof. repeat split. discriminate. Qed.

Lemma minimax_inverted_window_witness :
  exists r,
    @minimax game_engine 3 (Fin 1) (Fin 0) true start = Some (r, start)
    /\ (3%nat = O \/ @is_game_over game_engine start = true ->
        r = (Fin (@evaluate_board game_engine start), None))
    /\ (forall d' mv rest,
          3%nat = S d' -> @is_game_over game_engine start = false ->
          @legal_moves game_engine start = mv :: rest ->
          exists c,
            @minimax game_engine d' (Fin 1) (Fin 0) (negb true)
              (@push game_engine start mv)
            = Some (c, @push game_engine start mv)
            /\ r = (fst c, @first_move game_engine true (fst c) mv)).
Proof.
  apply (@minimax_inverted_window game_engine);
    [reversible | reflexivity].
Defined.

Lemma terminal_dominance_witness :
  Z.abs (@evaluate_board game_engine (at_position 6)) <= 1000
  /\ (NegInf < Fin (@evaluate_board game_engine (at_position 6)))%score
  /\ (Fin (@evaluate_board game_engine (at_position 6)) < PosInf)%score
  /\ Z.abs (@evaluate_board game_engine (at_position 2)) = 1000
  /\ Z.abs (@evaluate_board game_engine (at_position 0)) <= 576
  /\ Z.abs (@evaluate_board game_engine (at_position 0))
     < Z.abs (@evaluate_board game_engine (at_position 2)).
Proof.
  apply (@terminal_dominance game_engine (at_position 6) (at_position 2)
           (at_position 0)); reflexivity.
Defined.

Lemma minimax_move_present_witness :
  exists (z : Z) (m : nat),
    @minimax game_engine 3 NegInf PosInf true start
    = Some ((Fin z, Some m), start)
    /\ In m (@legal_moves game_engine start).
Proof.
  apply (@minimax_move_present game_engine);
    [reversible | consistent | lia | reflexivity].
Defined.

End Checks.


(** * Further properties of the search *)

(** ** The best move *)

Section Best.
Context {E : RulesEngine}.
Hypothesis Hrev : Reversible E.

Section Loops.
Variable b : Board.
Variable pchild : M SearchResult.

Definition plain_child_returns (moves : list Move) : Prop :=
  forall m, In m moves ->
    In m (legal_moves b) /\ exists r, returns pchild (push b m) r.

Lemma plain_child_returns_tail mv rest :
  plain_child_returns (mv :: rest) -> plain_child_returns rest.
Proof. intros H m Hm. apply H. right. exact Hm. Qed.

Let val (m : Move) : Score := result_score pchild (push b m).

(** The plain maximizing loop ends on the greatest score seen, and on the
    first move that reached it. *)
Lemma plain_max_loop_best moves :
  plain_child_returns moves ->
  forall M BM,
  exists V bm,
    returns (plain_max_loop pchild moves M BM) b (V, bm)
    /\ (M <= V)%score
    /\ (forall m, In m moves -> (val m <= V)%score)
    /\ ((V = M /\ bm = BM)
        \/ exists pre m0 post,
             moves = pre ++ m0 :: post /\ bm = Some m0 /\ val m0 = V
             /\ (M < V)%score
             /\ forall m, In m pre -> (val m < V)%score).
Proof using Hrev.
  induction moves as [|mv rest IH]; intros Hc M BM.
  - exists M, BM. split; [reflexivity|].
    split; [apply ScoreFacts.le_refl|].
    split; [intros m []|left; split; reflexivity].
  - destruct (Hc mv (or_introl eq_refl)) as [Hin [r Hr]].
    assert (Hval : val mv = fst r)
      by (unfold val, result_score; rewrite Hr; reflexivity).
    unfold returns.
    rewrite (plain_max_loop_step _ _ _ _ _ _ r (Hrev b mv Hin) Hr).
    cbv zeta. destruct r as [v o]; simpl fst in *.
    destruct (IH (plain_child_returns_tail _ _ Hc)
                (if (v >? M)%score then v else M)
                (if (v >? M)%score then Some mv else BM))
      as [V [bm [HV [Hle [Hall Hcase]]]]].
    exists V, bm. split; [exact HV|].
    split; [clear - Hle; score_solve|].
    split.
    + intros m [<- | Hm]; [|apply Hall; exact Hm].
      rewrite Hval. clear - Hle. score_solve.
    + destruct (v >? M)%score eqn:Hup.
      * right. destruct Hcase as [[-> ->] | [pre [m0 [post [-> [-> [H0 [Hlt Hpre]]]]]]]].
        -- exists [], mv, rest.
           split; [reflexivity|]. split; [reflexivity|].
           split; [exact Hval|]. split; [exact Hup|]. intros m [].
        -- exists (mv :: pre), m0, post.
           split; [reflexivity|]. split; [reflexivity|].
           split; [exact H0|].
           split; [clear - Hup Hlt; score_solve|].
           intros m [<- | Hm]; [rewrite Hval; exact Hlt|apply Hpre; exact Hm].
      * destruct Hcase as [[-> ->] | [pre [m0 [post [-> [-> [H0 [Hlt Hpre]]]]]]]].
        -- left. split; reflexivity.
        -- right. exists (mv :: pre), m0, post.
           split; [reflexivity|]. split; [reflexivity|].
           split; [exact H0|]. split; [exact Hlt|].
           intros m [<- | Hm]; [|apply Hpre; exact Hm].
           rewrite Hval. clear - Hup Hlt. score_solve.
Qed.

(** The plain minimizing loop, likewise with the least score. *)
Lemma plain_min_loop_best moves :
  plain_child_returns moves ->
  forall M BM,
  exists V bm,
    returns (plain_min_loop pchild moves M BM) b (V, bm)
    /\ (V <= M)%score
    /\ (forall m, In m moves -> (V <= val m)%score)
    /\ ((V = M /\ bm = BM)
        \/ exists pre m0 post,
             moves = pre ++ m0 :: post /\ bm = Some m0 /\ val m0 = V
             /\ (V < M)%score
             /\ forall m, In m pre -> (V < val m)%score).
Proof using Hrev.
  induction moves as [|mv rest IH]; intros Hc M BM.
  - exists M, BM. split; [reflexivity|].
    split; [apply ScoreFacts.le_refl|].
    split; [intros m []|left; split; reflexivity].
  - destruct (Hc mv (or_introl eq_refl)) as [Hin [r Hr]].
    assert (Hval : val mv = fst r)
      by (unfold val, result_score; rewrite Hr; reflexivity).
    unfold returns.
    rewrite (plain_min_loop_step _ _ _ _ _ _ r (Hrev b mv Hin) Hr).
    cbv zeta. destruct r as [v o]; simpl fst in *.
    destruct (IH (plain_child_returns_tail _ _ Hc)
                (if (v <? M)%score then v else M)
                (if (v <? M)%score then Some mv else BM))
      as [V [bm [HV [Hle [Hall Hcase]]]]].
    exists V, bm. split; [exact HV|].
    split; [clear - Hle; score_solve|].
    split.
    + intros m [<- | Hm]; [|apply Hall; exact Hm].
      rewrite Hval. clear - Hle. score_solve.
    + destruct (v <? M)%score eqn:Hup.
      * right. destruct Hcase as [[-> ->] | [pre [m0 [post [-> [-> [H0 [Hlt Hpre]]]]]]]].
        -- exists [], mv, rest.
           split; [reflexivity|]. split; [reflexivity|].
           split; [exact Hval|]. split; [exact Hup|]. intros m [].
        -- exists (mv :: pre), m0, post.
           split; [reflexivity|]. split; [reflexivity|].
           split; [exact H0|].
           split; [clear - Hup Hlt; score_solve|].
           intros m [<- | Hm]; [rewrite Hval; exact Hlt|apply Hpre; exact Hm].
      * destruct Hcase as [[-> ->] | [pre [m0 [post [-> [-> [H0 [Hlt Hpre]]]]]]]].
        -- left. split; reflexivity.
        -- right. exists (mv :: pre), m0, post.
           split; [reflexivity|]. split; [reflexivity|].
           split; [exact H0|]. split; [exact Hlt|].
           intros m [<- | Hm]; [|apply Hpre; exact Hm].
           rewrite Hval. clear - Hup Hlt. score_solve.
Qed.

End Loops.

(** The plain search below a move is the full-window search below it. *)
Lemma result_score_subtree d mx b m :
  subtree_score d mx b m (result_score (plain_minimax d mx) (push b m)).
Proof using Hrev.
  destruct (minimax_returns Hrev d NegInf PosInf mx (push b m)) as [[v om] Hr].
  unfold returns in Hr. unfold subtree_score, result_score.
  rewrite <- (minimax_full_window Hrev). rewrite Hr. simpl.
  exists om. reflexivity.
Qed.

Lemma plain_children d mx b :
  plain_child_returns b (plain_minimax d mx) (legal_moves b).
Proof using Hrev.
  intros m Hm. split; [exact Hm|].
  destruct (minimax_returns Hrev d NegInf PosInf mx (push b m)) as [r Hr].
  exists r. unfold returns in *.
  rewrite <- (minimax_full_window Hrev). exact Hr.
Qed.

Lemma subtree_score_unique d mx b m v w :
  subtree_score d mx b m v -> subtree_score d mx b m w -> v = w.
Proof. intros [o Hv] [o' Hw]. congruence. Qed.

(** The root of a maximizing search with the full window. *)
Lemma minimax_max_root d b :
  is_game_over b = false ->
  exists s om,
    minimax (S d) NegInf PosInf true b = Some ((s, om), b)
    /\ (forall m, In m (legal_moves b) ->
          exists v, subtree_score d false b m v /\ (v <= s)%score)
    /\ match om with
       | None => s = NegInf
       | Some m0 =>
           exists pre post,
             legal_moves b = pre ++ m0 :: post
             /\ subtree_score d false b m0 s
             /\ forall m, In m pre ->
                  exists v, subtree_score d false b m v /\ (v < s)%score
       end.
Proof using Hrev.
  intros Hover.
  rewrite (minimax_full_window Hrev), (plain_minimax_unfold _ _ _ Hover).
  destruct (plain_max_loop_best b _ _ (plain_children d false b) NegInf None)
    as [V [bm [HV [_ [Hall Hcase]]]]].
  exists V, bm. split; [exact HV|]. split.
  - intros m Hm. eexists. split; [apply result_score_subtree|].
    apply Hall. exact Hm.
  - destruct Hcase as [[-> ->] | [pre [m0 [post [Hl [-> [H0 [_ Hpre]]]]]]]].
    + reflexivity.
    + exists pre, post. split; [exact Hl|].
      split; [rewrite <- H0; apply result_score_subtree|].
      intros m Hm. eexists. split; [apply result_score_subtree|].
      apply Hpre. exact Hm.
Qed.

(** The root of a minimizing search with the full window. *)
Lemma minimax_min_root d b :
  is_game_over b = false ->
  exists s om,
    minimax (S d) NegInf PosInf false b = Some ((s, om), b)
    /\ (forall m, In m (legal_moves b) ->
          exists v, subtree_score d true b m v /\ (s <= v)%score)
    /\ match om with
       | None => s = PosInf
       | Some m0 =>
           exists pre post,
             legal_moves b = pre ++ m0 :: post
             /\ subtree_score d true b m0 s
             /\ forall m, In m pre ->
                  exists v, subtree_score d true b m v /\ (s < v)%score
       end.
Proof using Hrev.
  intros Hover.
  rewrite (minimax_full_window Hrev), (plain_minimax_unfold _ _ _ Hover).
  destruct (plain_min_loop_best b _ _ (plain_children d true b) PosInf None)
    as [V [bm [HV [_ [Hall Hcase]]]]].
  exists V, bm. split; [exact HV|]. split.
  - intros m Hm. eexists. split; [apply result_score_subtree|].
    apply Hall. exact Hm.
  - destruct Hcase as [[-> ->] | [pre [m0 [post [Hl [-> [H0 [_ Hpre]]]]]]]].
    + reflexivity.
    + exists pre, post. split; [exact Hl|].
      split; [rewrite <- H0; apply result_score_subtree|].
      intros m Hm. eexists. split; [apply result_score_subtree|].
      apply Hpre. exact Hm.
Qed.

End Best.

(** ** Where the score of a search comes from *)

Section ScoreInvariant.
Context {E : RulesEngine}.
Hypothesis Hrev : Reversible E.
Hypothesis Hcons : Consistent E.

(** A property of scores that every evaluation has. *)
Variable P : Score -> Prop.
Hypothesis Heval : forall b : Board, P (Fin (evaluate_board b)).

Section Loops.
Variable b : Board.
Variable child : Score -> Score -> M SearchResult.

Definition child_scores_in (moves : list Move) : Prop :=
  forall m, In m moves ->
    In m (legal_moves b) /\
    forall alpha beta,
      exists r, returns (child alpha beta) (push b m) r /\ P (fst r).

Lemma child_scores_in_tail mv rest :
  child_scores_in (mv :: rest) -> child_scores_in rest.
Proof. intros H m Hm. apply H. right. exact Hm. Qed.

Lemma max_loop_score_in moves :
  child_scores_in moves ->
  forall alpha beta max_eval best_move,
  (max_eval = NegInf /\ moves <> []) \/ P max_eval ->
  exists r, returns (max_loop child moves alpha beta max_eval best_move) b r
            /\ P (fst r).
Proof using Hrev.
  induction moves as [|mv rest IH];
    intros Hc alpha beta max_eval best_move Hstart.
  - destruct Hstart as [[_ Hne]|HP]; [congruence|].
    eexists; split; [reflexivity|exact HP].
  - destruct (Hc mv (or_introl eq_refl)) as [Hin Hch].
    destruct (Hch alpha beta) as [[s om] [Hr Hs]]. simpl in Hs.
    unfold returns.
    rewrite (max_loop_step _ _ _ _ _ _ _ _ _ (Hrev b mv Hin) Hr).
    cbv zeta. simpl fst.
    assert (Hnext : P (if (s >? max_eval)%score then s else max_eval)).
    { destruct (s >? max_eval)%score eqn:Hup; [exact Hs|].
      destruct Hstart as [[-> _]|HP]; [|exact HP].
      destruct s; try discriminate. exact Hs. }
    destruct (_ <=? _)%score.
    + eexists; split; [reflexivity|exact Hnext].
    + apply IH; [eapply child_scores_in_tail; exact Hc|right; exact Hnext].
Qed.

Lemma min_loop_score_in moves :
  child_scores_in moves ->
  forall alpha beta min_eval best_move,
  (min_eval = PosInf /\ moves <> []) \/ P min_eval ->
  exists r, returns (min_loop child moves alpha beta min_eval best_move) b r
            /\ P (fst r).
Proof using Hrev.
  induction moves as [|mv rest IH];
    intros Hc alpha beta min_eval best_move Hstart.
  - destruct Hstart as [[_ Hne]|HP]; [congruence|].
    eexists; split; [reflexivity|exact HP].
  - destruct (Hc mv (or_introl eq_refl)) as [Hin Hch].
    destruct (Hch alpha beta) as [[s om] [Hr Hs]]. simpl in Hs.
    unfold returns.
    rewrite (min_loop_step _ _ _ _ _ _ _ _ _ (Hrev b mv Hin) Hr).
    cbv zeta. simpl fst.
    assert (Hnext : P (if (s <? min_eval)%score then s else min_eval)).
    { destruct (s <? min_eval)%score eqn:Hup; [exact Hs|].
      destruct Hstart as [[-> _]|HP]; [|exact HP].
      destruct s; try discriminate. exact Hs. }
    destruct (_ <=? _)%score.
    + eexists; split; [reflexivity|exact Hnext].
    + apply IH; [eapply child_scores_in_tail; exact Hc|right; exact Hnext].
Qed.
End Loops.

Lemma minimax_score_in :
  forall d alpha beta is_maximizing b,
  exists r, returns (minimax d alpha beta is_maximizing) b r /\ P (fst r).
Proof using Hrev Hcons Heval.
  induction d as [|d IH]; intros alpha beta mx b.
  - eexists; split; [apply minimax_depth_0|apply Heval].
  - destruct (is_game_over b) eqn:Hover.
    + eexists; split; [apply minimax_game_over; exact Hover|apply Heval].
    + assert (Hc : forall mx', child_scores_in b (fun a c => minimax d a c mx')
                                 (legal_moves b)).
      { intros mx' m Hm. split; [exact Hm|]. intros a c. apply IH. }
      unfold returns. rewrite (minimax_unfold _ _ _ _ _ Hover).
      destruct mx.
      * apply max_loop_score_in; [apply Hc|].
        left; split; [reflexivity|apply Hcons; exact Hover].
      * apply min_loop_score_in; [apply Hc|].
        left; split; [reflexivity|apply Hcons; exact Hover].
Qed.

End ScoreInvariant.

Section Range.
Context {E : RulesEngine}.

Lemma evaluate_board_in_range (b : Board) : in_range (Fin (evaluate_board b)).
Proof.
  exists (evaluate_board b). split; [reflexivity|].
  destruct (is_checkmate b) eqn:Hb.
  - rewrite (evaluate_board_checkmate b Hb). destruct (turn b); lia.
  - pose proof (evaluate_board_no_checkmate b Hb). lia.
Qed.

Lemma minimax_in_range :
  Reversible E -> Consistent E ->
  forall d alpha beta is_maximizing b,
  exists r, returns (minimax d alpha beta is_maximizing) b r /\ in_range (fst r).
Proof.
  intros Hrev Hcons. apply minimax_score_in; try assumption.
  apply evaluate_board_in_range.
Qed.

(** A move that mates Black at once is worth 1000 to every depth. *)
Lemma mating_move_score d b m :
  is_game_over (push b m) = true ->
  is_checkmate (push b m) = true ->
  turn (push b m) = BLACK ->
  subtree_score d false b m (Fin 1000).
Proof.
  intros Hover Hmate Hturn. exists None.
  rewrite (minimax_game_over _ _ _ _ _ Hover).
  rewrite (evaluate_board_checkmate _ Hmate), Hturn. reflexivity.
Qed.

Lemma mated_white_score d b m :
  is_game_over (push b m) = true ->
  is_checkmate (push b m) = true ->
  turn (push b m) = WHITE ->
  subtree_score d true b m (Fin (-1000)).
Proof.
  intros Hover Hmate Hturn. exists None.
  rewrite (minimax_game_over _ _ _ _ _ Hover).
  rewrite (evaluate_board_checkmate _ Hmate), Hturn. reflexivity.
Qed.

Lemma subtree_score_in_range d mx b m v :
  Reversible E -> Consistent E ->
  subtree_score d mx b m v -> in_range v.
Proof.
  intros Hrev Hcons [om Hv].
  destruct (minimax_in_range Hrev Hcons d NegInf PosInf mx (push b m))
    as [r [Hr Hin]].
  unfold returns in Hr. rewrite Hv in Hr. injection Hr as <-. exact Hin.
Qed.

End Range.

(** ** The search, further *)

Section SearchProperties.
Context {E : RulesEngine}.

(** X1.  With a rules engine whose [pop] undoes [push], a search with any
    window [alpha < beta] answers within that window of the search with the
    full window: the same score when that score lies strictly between
    [alpha] and [beta], and otherwise a score on the same side of the window
    and no further from it. *)
Theorem minimax_window :
  Reversible E ->
  forall (d : nat) (alpha beta : Score) (is_maximizing : bool) (b : Board),
  (alpha < beta)%score ->
  exists r v,
    minimax d alpha beta is_maximizing b = Some (r, b)
    /\ minimax d NegInf PosInf is_maximizing b = Some (v, b)
    /\ within alpha beta (fst r) (fst v).
Proof.
  intros Hrev d alpha beta mx b Hab.
  destruct (minimax_within Hrev d mx b) as [v [Hv Hw]].
  destruct (Hw alpha beta Hab) as [r [Hr Hrv]].
  exists r, v. split; [exact Hr|]. split; [|exact Hrv].
  rewrite (minimax_full_window Hrev). exact Hv.
Qed.

(** X2.  With a rules engine whose [pop] undoes [push], a maximizing search
    with the full window on a board that is not game over returns the
    greatest of the scores of the positions its legal moves lead to, and the
    first legal move that has this score; it returns no move only when the
    score is [-inf]. *)
Theorem minimax_maximizes :
  Reversible E ->
  forall (d : nat) (b : Board),
  is_game_over b = false ->
  exists s om,
    minimax (S d) NegInf PosInf true b = Some ((s, om), b)
    /\ (forall m, In m (legal_moves b) ->
          exists v, subtree_score d false b m v /\ (v <= s)%score)
    /\ match om with
       | None => s = NegInf
       | Some m0 =>
           exists pre post,
             legal_moves b = pre ++ m0 :: post
             /\ subtree_score d false b m0 s
             /\ forall m, In m pre ->
                  exists v, subtree_score d false b m v /\ (v < s)%score
       end.
Proof. intros Hrev d b Hover. apply minimax_max_root; assumption. Qed.

(** X3.  Likewise a minimizing search with the full window returns the least
    of the scores of the positions its legal moves lead to, and the first
    legal move that has this score; it returns no move only when the score
    is [inf]. *)
Theorem minimax_minimizes :
  Reversible E ->
  forall (d : nat) (b : Board),
  is_game_over b = false ->
  exists s om,
    minimax (S d) NegInf PosInf false b = Some ((s, om), b)
    /\ (forall m, In m (legal_moves b) ->
          exists v, subtree_score d true b m v /\ (s <= v)%score)
    /\ match om with
       | None => s = PosInf
       | Some m0 =>
           exists pre post,
             legal_moves b = pre ++ m0 :: post
             /\ subtree_score d true b m0 s
             /\ forall m, In m pre ->
                  exists v, subtree_score d true b m v /\ (s < v)%score
       end.
Proof. intros Hrev d b Hover. apply minimax_min_root; assumption. Qed.

(** X4.  With a rules engine whose [pop] undoes [push] and which gives every
    board that is not game over a legal move, the score of a search is an
    integer between -1000 and 1000, at every depth and for every window. *)
Theorem minimax_score_in_range :
  Reversible E -> Consistent E ->
  forall (d : nat) (alpha beta : Score) (is_maximizing : bool) (b : Board),
  exists (z : Z) (om : option Move),
    minimax d alpha beta is_maximizing b = Some ((Fin z, om), b)
    /\ -1000 <= z <= 1000.
Proof.
  intros Hrev Hcons d alpha beta mx b.
  destruct (minimax_in_range Hrev Hcons d alpha beta mx b)
    as [[s om] [Hr [z [Hs Hz]]]].
  simpl in Hs. subst s. exists z, om. split; [exact Hr|exact Hz].
Qed.

(** X5.  When one of the legal moves mates Black at once, a maximizing search
    with the full window returns the score 1000, at every depth above 0, and
    a legal move whose position has that score (the rules engine as in
    X4, and reporting a checkmate as game over). *)
Theorem minimax_finds_mate :
  Reversible E -> Consistent E ->
  forall (d : nat) (b : Board) (m : Move),
  is_game_over b = false ->
  In m (legal_moves b) ->
  is_game_over (push b m) = true ->
  is_checkmate (push b m) = true ->
  turn (push b m) = BLACK ->
  exists m0,
    minimax (S d) NegInf PosInf true b = Some ((Fin 1000, Some m0), b)
    /\ In m0 (legal_moves b)
    /\ subtree_score d false b m0 (Fin 1000).
Proof.
  intros Hrev Hcons d b m Hover Hin Hover' Hmate Hturn.
  destruct (minimax_max_root Hrev d b Hover) as [s [om [Hr [Hall Hom]]]].
  destruct (Hall m Hin) as [v [Hv Hle]].
  rewrite (subtree_score_unique _ _ _ _ _ _ Hv
             (mating_move_score d b m Hover' Hmate Hturn)) in Hle.
  destruct om as [m0|].
  - destruct Hom as [pre [post [Hl [H0 _]]]].
    destruct (subtree_score_in_range _ _ _ _ _ Hrev Hcons H0) as [z [-> Hz]].
    assert (z = 1000) as ->
      by (unfold ScoreOrd.le in Hle; simpl in Hle; apply Z.leb_le in Hle; lia).
    exists m0. split; [exact Hr|]. split; [|exact H0].
    rewrite Hl. apply in_or_app. right. left. reflexivity.
  - subst s. discriminate Hle.
Qed.

(** X6.  At depth 1 the move is itself a mate: when one of the legal moves
    mates Black, a maximizing search of depth 1 with the full window returns
    the score 1000 and a legal move after which Black is checkmated. *)
Theorem minimax_mate_in_one :
  Reversible E ->
  forall (b : Board) (m : Move),
  is_game_over b = false ->
  In m (legal_moves b) ->
  is_checkmate (push b m) = true ->
  turn (push b m) = BLACK ->
  exists m0,
    minimax 1 NegInf PosInf true b = Some ((Fin 1000, Some m0), b)
    /\ In m0 (legal_moves b)
    /\ is_checkmate (push b m0) = true
    /\ turn (push b m0) = BLACK.
Proof.
  intros Hrev b m Hover Hin Hmate Hturn.
  destruct (minimax_max_root Hrev 0 b Hover) as [s [om [Hr [Hall Hom]]]].
  assert (Hleaf : forall m' v, subtree_score 0 false b m' v ->
                    v = Fin (evaluate_board (push b m'))).
  { intros m' v [o Hv]. rewrite minimax_depth_0 in Hv. congruence. }
  destruct (Hall m Hin) as [v [Hv Hle]].
  rewrite (Hleaf _ _ Hv), (evaluate_board_checkmate _ Hmate), Hturn in Hle.
  destruct om as [m0|].
  - destruct Hom as [pre [post [Hl [H0 _]]]].
    apply Hleaf in H0. subst s.
    unfold ScoreOrd.le in Hle; simpl in Hle; apply Z.leb_le in Hle.
    destruct (is_checkmate (push b m0)) eqn:Hmate0.
    + rewrite (evaluate_board_checkmate _ Hmate0) in Hle, Hr.
      destruct (turn (push b m0)) eqn:Hturn0; [lia|].
      exists m0. split; [exact Hr|].
      split; [rewrite Hl; apply in_or_app; right; left; reflexivity|].
      split; [exact Hmate0|exact Hturn0].
    + pose proof (evaluate_board_no_checkmate _ Hmate0). lia.
  - subst s. discriminate Hle.
Qed.

End SearchProperties.

(** ** [get_random_move] and the computer's move *)

Section ComputerMove.
Context {E : RulesEngine}.

(** X7.  [get_random_move] never raises and leaves the board alone; it
    returns [None] exactly when there is no legal move, and otherwise one of
    the legal moves. *)
Theorem get_random_move_legal :
  forall (rnd : nat) (b : Board),
  exists om,
    get_random_move rnd b = Some (om, b)
    /\ (om = None <-> legal_moves b = [])
    /\ (forall m, om = Some m -> In m (legal_moves b)).
Proof.
  intros rnd b. unfold get_random_move, bind, ask.
  destruct (legal_moves b) as [|m0 l] eqn:Hl.
  - exists None. split; [reflexivity|]. split; [tauto|discriminate].
  - unfold ret.
    destruct (nth_error (m0 :: l) (Nat.modulo rnd (List.length (m0 :: l))))
      as [m|] eqn:Hn.
    + exists (Some m). split; [reflexivity|].
      split; [split; discriminate|].
      intros m' [= <-]. eapply nth_error_In. exact Hn.
    + exfalso. apply nth_error_None in Hn.
      pose proof (Nat.mod_upper_bound rnd (List.length (m0 :: l))) as Hb.
      simpl List.length in *. lia.
Qed.

(** X8.  Every legal move can be drawn: for each legal move there is a draw
    below the number of legal moves on which [get_random_move] returns it. *)
Theorem get_random_move_covers :
  forall (b : Board) (m : Move),
  In m (legal_moves b) ->
  exists rnd,
    (rnd < List.length (legal_moves b))%nat
    /\ get_random_move rnd b = Some (Some m, b).
Proof.
  intros b m Hin. destruct (In_nth_error _ _ Hin) as [n Hn].
  assert (Hlt : (n < List.length (legal_moves b))%nat)
    by (apply nth_error_Some; congruence).
  exists n. split; [exact Hlt|].
  unfold get_random_move, bind, ask.
  destruct (legal_moves b) as [|m0 l] eqn:Hl; [simpl in Hlt; lia|].
  unfold ret. rewrite Nat.mod_small by exact Hlt. rewrite Hn. reflexivity.
Qed.

(** X9.  With a rules engine whose [pop] undoes [push] and which gives every
    board that is not game over a legal move, the computer's turn on a board
    that is not game over never raises, in the random mode and in the minimax
    mode alike: it plays exactly one move, a legal one. *)
Theorem computer_turn_plays_legal_move :
  Reversible E -> Consistent E ->
  forall (mode : string) (rnd : nat) (b : Board),
  is_game_over b = false ->
  exists m, In m (legal_moves b) /\ computer_turn mode rnd b = Some (tt, push b m).
Proof.
  intros Hrev Hcons mode rnd b Hover.
  unfold computer_turn. destruct (String.eqb mode "hvr").
  - destruct (get_random_move_legal rnd b) as [om [Hr [Hnone Hsome]]].
    destruct om as [m|].
    + exists m. split; [apply Hsome; reflexivity|].
      unfold bind. rewrite Hr. reflexivity.
    + exfalso. apply (Hcons b Hover). apply Hnone. reflexivity.
  - destruct (minimax_found Hrev Hcons 3 NegInf PosInf true b)
      as [r [Hr [_ Hf]]].
    destruct Hf as [z [m [-> Hin]]]; [discriminate|exact Hover|].
    exists m. split; [exact Hin|].
    assert (Hcall : call_minimax play_game_search_args b
                    = Some ((Fin z, Some m), b)) by exact Hr.
    unfold bind. rewrite Hcall. reflexivity.
Qed.

End ComputerMove.


(** ** The material count *)

Section MaterialProperties.
Context {E : RulesEngine}.

Lemma add_square_contribution b score square :
  add_square b score square = score + contribution (piece_at b square).
Proof.
  unfold add_square, contribution.
  destruct (piece_at b square); [reflexivity|lia].
Qed.

Lemma fold_add_square_shift b squares :
  forall score,
  fold_left (add_square b) squares score
  = score + fold_left (add_square b) squares 0.
Proof.
  induction squares as [|sq squares IH]; intros score; simpl.
  - lia.
  - rewrite IH, (IH (add_square b 0 sq)), !add_square_contribution. lia.
Qed.

(** Two boards that differ on one square of the list at most. *)
Lemma fold_add_square_one_square b b' sq0 squares :
  NoDup squares ->
  (forall sq, In sq squares -> sq <> sq0 -> piece_at b' sq = piece_at b sq) ->
  fold_left (add_square b') squares 0
  = fold_left (add_square b) squares 0
    + (if in_dec Nat.eq_dec sq0 squares
       then contribution (piece_at b' sq0) - contribution (piece_at b sq0)
       else 0).
Proof.
  induction squares as [|sq squares IH]; intros Hnd Hsame.
  - reflexivity.
  - inversion Hnd as [|? ? Hnotin Hnd']; subst.
    cbn [fold_left].
    rewrite (fold_add_square_shift b'), (fold_add_square_shift b).
    rewrite !add_square_contribution.
    rewrite (IH Hnd') by (intros x Hx; apply Hsame; right; exact Hx).
    destruct (in_dec Nat.eq_dec sq0 (sq :: squares)) as [Hin|Hout];
      destruct (in_dec Nat.eq_dec sq0 squares) as [Hin'|Hout'].
    + assert (sq <> sq0) by (intros ->; contradiction).
      rewrite (Hsame sq (or_introl eq_refl)) by assumption. lia.
    + destruct Hin as [->|Hin]; [lia|contradiction].
    + exfalso. apply Hout. right. exact Hin'.
    + assert (sq <> sq0) by (intros ->; apply Hout; left; reflexivity).
      rewrite (Hsame sq (or_introl eq_refl)) by assumption. lia.
Qed.

Lemma fold_add_square_swap b b' squares :
  (forall sq, In sq squares ->
     piece_at b' sq = option_map swap_color (piece_at b sq)) ->
  fold_left (add_square b') squares 0 = - fold_left (add_square b) squares 0.
Proof.
  induction squares as [|sq squares IH]; intros Hswap.
  - reflexivity.
  - cbn [fold_left].
    rewrite (fold_add_square_shift b'), (fold_add_square_shift b).
    rewrite !add_square_contribution.
    rewrite IH by (intros x Hx; apply Hswap; right; exact Hx).
    rewrite (Hswap sq (or_introl eq_refl)).
    destruct (piece_at b sq) as [[t c]|]; simpl; [|lia].
    destruct c; simpl; lia.
Qed.

(** X10.  The evaluation is a sum over the squares: on two boards that are
    neither checkmate nor stalemate and differ on one square only, it
    differs by what that square adds on the one and on the other (a capture
    of a queen costs its side 9, a king counts for nothing). *)
Theorem evaluate_board_one_square :
  forall (b b' : Board) (sq0 : Square),
  (sq0 < 64)%nat ->
  (forall sq, (sq < 64)%nat -> sq <> sq0 -> piece_at b' sq = piece_at b sq) ->
  is_checkmate b = false -> is_stalemate b = false ->
  is_checkmate b' = false -> is_stalemate b' = false ->
  evaluate_board b'
  = evaluate_board b
    - contribution (piece_at b sq0) + contribution (piece_at b' sq0).
Proof.
  intros b b' sq0 Hsq Hsame Hm Hs Hm' Hs'.
  unfold evaluate_board. rewrite Hm, Hs, Hm', Hs'. unfold material, SQUARES.
  rewrite (fold_add_square_one_square b b' sq0).
  - destruct (in_dec Nat.eq_dec sq0 (seq 0 64)) as [_|Hout]; [lia|].
    exfalso. apply Hout. apply in_seq. lia.
  - apply seq_NoDup.
  - intros sq Hin. apply Hsame. apply in_seq in Hin. lia.
Qed.

(** X11.  The evaluation is antisymmetric in the colours: when every piece
    of a board changes colour and the other side is to move, the board being
    checkmate or stalemate as before, the evaluation changes sign. *)
Theorem evaluate_board_swap_colors :
  forall b b' : Board,
  (forall sq, (sq < 64)%nat ->
     piece_at b' sq = option_map swap_color (piece_at b sq)) ->
  is_checkmate b = is_checkmate b' ->
  is_stalemate b = is_stalemate b' ->
  turn b' = negb (turn b) ->
  evaluate_board b' = - evaluate_board b.
Proof.
  intros b b' Hswap Hm Hs Ht.
  unfold evaluate_board. rewrite <- Hm, <- Hs, Ht.
  destruct (is_checkmate b); [destruct (turn b); reflexivity|].
  destruct (is_stalemate b); [reflexivity|].
  unfold material, SQUARES. apply fold_add_square_swap.
  intros sq Hin. apply Hswap. apply in_seq in Hin. lia.
Qed.

End MaterialProperties.


(** ** The printed board *)

Section PresentationProperties.
Context {E : RulesEngine}.

Lemma list_set_some {A} (l : list A) i x :
  (i < List.length l)%nat -> exists l', list_set l i x = Some l'.
Proof.
  revert i. induction l as [|a l IH]; intros i Hi; simpl in Hi; [lia|].
  destruct i as [|i]; simpl.
  - eexists; reflexivity.
  - destruct (IH i) as [l' Hl']; [lia|]. rewrite Hl'. eexists; reflexivity.
Qed.

Lemma list_set_length {A} (l l' : list A) i x :
  list_set l i x = Some l' -> List.length l' = List.length l.
Proof.
  revert i l'. induction l as [|a l IH]; intros i l' H; simpl in H;
    [discriminate|].
  destruct i as [|i].
  - injection H as <-. reflexivity.
  - destruct (list_set l i x) as [l''|] eqn:Hl; [|discriminate].
    injection H as <-. simpl. f_equal. eapply IH. exact Hl.
Qed.

Lemma nth_error_list_set {A} (l l' : list A) i x j :
  list_set l i x = Some l' ->
  nth_error l' j = if Nat.eqb j i then Some x else nth_error l j.
Proof.
  revert i l' j. induction l as [|a l IH]; intros i l' j H; simpl in H;
    [discriminate|].
  destruct i as [|i].
  - injection H as <-. destruct j; reflexivity.
  - destruct (list_set l i x) as [l''|] eqn:Hl; [|discriminate].
    injection H as <-. destruct j as [|j]; [reflexivity|].
    simpl. apply IH. exact Hl.
Qed.

(** Eight rows of eight squares. *)
Definition eight_by_eight (vb : Grid) : Prop :=
  List.length vb = 8%nat /\ forall row, In row vb -> List.length row = 8%nat.

Lemma blank_board_shape : eight_by_eight blank_board.
Proof.
  split; [reflexivity|]. intros row Hin.
  apply repeat_spec in Hin. subst row. reflexivity.
Qed.

Lemma grid_set_spec vb row col text :
  eight_by_eight vb -> (row < 8)%nat -> (col < 8)%nat ->
  exists vb',
    grid_set vb row col text = Some vb'
    /\ eight_by_eight vb'
    /\ forall r c,
         grid_get vb' r c
         = if Nat.eqb r row && Nat.eqb c col then Some text
           else grid_get vb r c.
Proof.
  intros [Hlen Hrows] Hrow Hcol. unfold grid_set.
  destruct (nth_error vb row) as [r0|] eqn:Hr0;
    [|apply nth_error_None in Hr0; lia].
  assert (Hr0len : List.length r0 = 8%nat)
    by (apply Hrows; eapply nth_error_In; exact Hr0).
  destruct (list_set_some r0 col text) as [r' Hr']; [lia|].
  destruct (list_set_some vb row r') as [vb' Hvb']; [lia|].
  rewrite Hr', Hvb'. exists vb'. split; [reflexivity|]. split.
  - split; [rewrite (list_set_length _ _ _ _ Hvb'); exact Hlen|].
    intros x Hx. destruct (In_nth_error _ _ Hx) as [j Hj].
    rewrite (nth_error_list_set _ _ _ _ j Hvb') in Hj.
    destruct (Nat.eqb j row).
    + injection Hj as <-. rewrite (list_set_length _ _ _ _ Hr'). exact Hr0len.
    + apply Hrows. eapply nth_error_In. exact Hj.
  - intros r c. unfold grid_get.
    rewrite (nth_error_list_set _ _ _ _ r Hvb').
    destruct (Nat.eqb_spec r row) as [->|Hne]; simpl.
    + rewrite (nth_error_list_set _ _ _ _ c Hr'), Hr0. reflexivity.
    + reflexivity.
Qed.

Lemma piece_symbols_complete (piece : Piece) :
  exists text, dict_item piece_symbols (symbol piece) = Some text.
Proof. destruct piece as [[] []]; eexists; reflexivity. Qed.

Lemma square_text_some b i : exists text, square_text b i = Some text.
Proof.
  unfold square_text. destruct (piece_at b i) as [piece|].
  - apply piece_symbols_complete.
  - eexists; reflexivity.
Qed.

Lemma blank_board_get r c :
  (r < 8)%nat -> (c < 8)%nat -> grid_get blank_board r c = Some "."%string.
Proof.
  intros Hr Hc. unfold grid_get, blank_board.
  do 8 (destruct r as [|r]; [do 8 (destruct c as [|c]; [reflexivity|]); lia|]).
  lia.
Qed.

(** The grid after the first [n] rounds of the loop over the squares. *)
Lemma draw_squares_prefix b n :
  (n <= 64)%nat ->
  exists vb,
    fold_left (draw_square b) (seq 0 n) (Some blank_board) = Some vb
    /\ eight_by_eight vb
    /\ forall i, (i < 64)%nat ->
         grid_get vb (7 - i / 8) (i mod 8)
         = if Nat.ltb i n then square_text b i else Some "."%string.
Proof.
  induction n as [|n IH]; intros Hn.
  - exists blank_board. split; [reflexivity|].
    split; [apply blank_board_shape|].
    intros i Hi. replace (i <? 0)%nat with false by reflexivity.
    apply blank_board_get; [lia|].
    apply Nat.mod_upper_bound. lia.
  - destruct IH as [vb [Hvb [Hshape Hget]]]; [lia|].
    unfold Square in *. rewrite seq_S, fold_left_app, Hvb.
    cbn [fold_left]. change (0 + n)%nat with n. unfold draw_square.
    assert (Hcoord : forall i, (i < 64)%nat ->
              (i / 8 < 8)%nat /\ (i mod 8 < 8)%nat
              /\ i = (8 * (i / 8) + i mod 8)%nat).
    { intros i Hi. split; [apply Nat.Div0.div_lt_upper_bound; lia|].
      split; [apply Nat.mod_upper_bound; lia|apply Nat.div_mod_eq]. }
    destruct (Hcoord n) as [Hq [Hr Hdm]]; [lia|].
    unfold square_text in *.
    destruct (piece_at b n) as [piece|] eqn:Hp.
    + destruct (piece_symbols_complete piece) as [text Htext]. rewrite Htext.
      destruct (grid_set_spec vb (7 - n / 8) (n mod 8) text Hshape)
        as [vb' [Hset [Hshape' Hget']]]; [lia|lia|].
      exists vb'. split; [exact Hset|]. split; [exact Hshape'|].
      intros i Hi. rewrite Hget'.
      destruct (Hcoord i Hi) as [Hqi [Hri Hdmi]].
      destruct (Nat.eq_dec i n) as [->|Hne].
      * rewrite !Nat.eqb_refl. simpl.
        replace (n <? S n)%nat with true by (symmetry; apply Nat.ltb_lt; lia).
        rewrite Hp. symmetry. exact Htext.
      * replace (Nat.eqb (7 - i / 8) (7 - n / 8) && Nat.eqb (i mod 8) (n mod 8))
          with false.
        -- rewrite (Hget i Hi).
           destruct (Nat.ltb_spec i n), (Nat.ltb_spec i (S n));
             try reflexivity; lia.
        -- symmetry. apply andb_false_iff.
           destruct (Nat.eqb_spec (7 - i / 8) (7 - n / 8)) as [Hq'|];
             [|left; reflexivity].
           destruct (Nat.eqb_spec (i mod 8) (n mod 8)) as [Hr'|];
             [|right; reflexivity].
           exfalso. lia.
    + exists vb. split; [reflexivity|]. split; [exact Hshape|].
      intros i Hi. rewrite (Hget i Hi).
      destruct (Nat.eq_dec i n) as [->|Hne].
      * replace (n <? n)%nat with false by (symmetry; apply Nat.ltb_ge; lia).
        replace (n <? S n)%nat with true by (symmetry; apply Nat.ltb_lt; lia).
        rewrite Hp. reflexivity.
      * destruct (Nat.ltb_spec i n), (Nat.ltb_spec i (S n));
          try reflexivity; lia.
Qed.

Lemma visual_board_cells b :
  exists vb,
    visual_board b = Some vb
    /\ eight_by_eight vb
    /\ forall rank file, (rank < 8)%nat -> (file < 8)%nat ->
         exists text,
           square_text b (8 * rank + file)%nat = Some text
           /\ grid_get vb (7 - rank) file = Some text.
Proof.
  destruct (draw_squares_prefix b 64 (Nat.le_refl _)) as [vb [Hvb [Hshape Hget]]].
  exists vb. split; [exact Hvb|]. split; [exact Hshape|].
  intros rank file Hrank Hfile.
  destruct (square_text_some b (8 * rank + file)%nat) as [text Htext].
  exists text. split; [exact Htext|].
  specialize (Hget (8 * rank + file)%nat ltac:(lia)).
  replace ((8 * rank + file) / 8)%nat with rank in Hget
    by (apply (Nat.div_unique _ 8 rank file); lia).
  replace ((8 * rank + file) mod 8)%nat with file in Hget
    by (apply (Nat.mod_unique _ 8 rank file); lia).
  replace (8 * rank + file <? 64)%nat with true in Hget
    by (symmetry; apply Nat.ltb_lt; lia).
  rewrite Hget. exact Htext.
Qed.

(** X12.  The grid of [print_board] is always built, whatever stands on the
    board: it is eight rows of eight squares, and the square of rank [rank]
    and file [file] (both counted from 0, square [8 * rank + file]) stands
    in row [7 - rank], column [file], showing the figure of its piece or a
    dot.  So the eighth rank is the first row and the a-file the first
    column. *)
Theorem visual_board_shows_board :
  forall b : Board,
  exists vb,
    visual_board b = Some vb
    /\ List.length vb = 8%nat
    /\ (forall row, In row vb -> List.length row = 8%nat)
    /\ forall rank file, (rank < 8)%nat -> (file < 8)%nat ->
         grid_get vb (7 - rank) file
         = Some match piece_at b (8 * rank + file)%nat with
                | Some (mkPiece PAWN true) => "♙" | Some (mkPiece PAWN false) => "♟"
                | Some (mkPiece KNIGHT true) => "♘" | Some (mkPiece KNIGHT false) => "♞"
                | Some (mkPiece BISHOP true) => "♗" | Some (mkPiece BISHOP false) => "♝"
                | Some (mkPiece ROOK true) => "♖" | Some (mkPiece ROOK false) => "♜"
                | Some (mkPiece QUEEN true) => "♕" | Some (mkPiece QUEEN false) => "♛"
                | Some (mkPiece KING true) => "♔" | Some (mkPiece KING false) => "♚"
                | None => "."
                end%string.
Proof.
  intros b. destruct (visual_board_cells b) as [vb [Hvb [[Hlen Hrows] Hget]]].
  exists vb. split; [exact Hvb|]. split; [exact Hlen|]. split; [exact Hrows|].
  intros rank file Hrank Hfile.
  destruct (Hget rank file Hrank Hfile) as [text [Htext ->]].
  unfold square_text in Htext.
  destruct (piece_at b (8 * rank + file)%nat) as [[[] []]|];
    simpl in Htext; symmetry; exact Htext.
Qed.

End PresentationProperties.


(** ** The console *)

Section ConsoleProperties.
Context {E : RulesEngine} {I : Interface E}.

Lemma print_board_ok (w : World) :
  exists vb,
    visual_board (w_board w) = Some vb
    /\ List.length (board_prints vb) = 12%nat
    /\ print_board w
       = Some (tt, mkWorld (w_board w) (w_stdin w)
                     (w_stdout w ++ map Line (board_prints vb))).
Proof.
  destruct (visual_board_cells (w_board w)) as [vb [Hvb [[Hlen _] _]]].
  exists vb. split; [exact Hvb|]. split.
  - unfold board_prints, enumerate.
    rewrite !length_app, length_map, length_combine, length_seq, Hlen.
    reflexivity.
  - unfold print_board, io_bind, on_board. rewrite Hvb. reflexivity.
Qed.

Lemma ask_from_first_valid b bad good rest m :
  (forall line, In line bad -> rejected b line) ->
  parse_san b (strip good) = Some m ->
  forall out,
  ask_from b (bad ++ good :: rest) out
  = Some (m, (rest, out ++ rejected_output bad ++ [Prompt move_prompt])).
Proof.
  intros Hbad Hgood. induction bad as [|line bad IH]; intros out.
  - simpl. rewrite Hgood. reflexivity.
  - simpl. rewrite (Hbad line (or_introl eq_refl)).
    rewrite IH by (intros l Hl; apply Hbad; right; exact Hl).
    rewrite <- !app_assoc. reflexivity.
Qed.

Lemma ask_from_none b lines :
  forall out,
  ask_from b lines out = None <-> forall line, In line lines -> rejected b line.
Proof.
  induction lines as [|line lines IH]; intros out; simpl.
  - split; [intros _ l []|reflexivity].
  - destruct (parse_san b (strip line)) as [m|] eqn:Hp.
    + split; [discriminate|]. intros H.
      specialize (H line (or_introl eq_refl)). unfold rejected in H. congruence.
    + rewrite IH. split.
      * intros H l [<-|Hl]; [exact Hp|apply H; exact Hl].
      * intros H l Hl. apply H. right. exact Hl.
Qed.

(** X13.  [ask_human_move] returns the move of the first line that
    [parse_san] accepts (after [strip]): the lines before it are each
    answered with the complaint, the lines after it stay unread, and the
    board is not touched. *)
Theorem ask_human_move_first_valid :
  forall (b : Board) (bad : list string) (good : string) (rest : list string)
         (out : list Output) (m : Move),
  (forall line, In line bad -> parse_san b (strip line) = None) ->
  parse_san b (strip good) = Some m ->
  ask_human_move (mkWorld b (bad ++ good :: rest) out)
  = Some (m, mkWorld b rest
               (out ++ rejected_output bad ++ [Prompt move_prompt])).
Proof.
  intros b bad good rest out m Hbad Hgood.
  unfold ask_human_move. simpl.
  rewrite (ask_from_first_valid b bad good rest m Hbad Hgood). reflexivity.
Qed.

(** X14.  [ask_human_move] raises (the [EOFError] of [input]) exactly when
    none of the lines left to read is accepted by [parse_san]. *)
Theorem ask_human_move_raises :
  forall w : World,
  ask_human_move w = None
  <-> forall line, In line (w_stdin w) ->
        parse_san (w_board w) (strip line) = None.
Proof.
  intros w. rewrite <- (ask_from_none (w_board w) (w_stdin w) (w_stdout w)).
  unfold ask_human_move.
  destruct (ask_from (w_board w) (w_stdin w) (w_stdout w)) as [[m [r o]]|];
    split; congruence.
Qed.

Lemma is_ai_turn_black mode b :
  is_ai_turn mode b = true -> turn b = BLACK.
Proof.
  unfold is_ai_turn.
  destruct (turn b), (String.eqb mode "hvr"), (String.eqb mode "hvm");
    cbv; congruence.
Qed.

Lemma is_ai_turn_human mode b :
  turn b = WHITE
  \/ (String.eqb mode "hvr" = false /\ String.eqb mode "hvm" = false) ->
  is_ai_turn mode b = false.
Proof.
  unfold is_ai_turn. intros [-> | [-> ->]].
  - simpl. rewrite !andb_false_r. reflexivity.
  - reflexivity.
Qed.

Lemma play_round_human mode draw w bad good rest m :
  is_ai_turn mode (w_board w) = false ->
  w_stdin w = bad ++ good :: rest ->
  (forall line, In line bad -> rejected (w_board w) line) ->
  parse_san (w_board w) (strip good) = Some m ->
  exists vb,
    visual_board (w_board w) = Some vb
    /\ play_round mode draw w
       = Some (tt, mkWorld (push (w_board w) m) rest
                     (w_stdout w ++ map Line (board_prints vb)
                      ++ [Line (turn_color (w_board w) ++ "'s move")]
                      ++ rejected_output bad ++ [Prompt move_prompt])).
Proof.
  intros Hai Hin Hbad Hgood.
  destruct (print_board_ok w) as [vb [Hvb [_ Hprint]]].
  exists vb. split; [exact Hvb|].
  destruct w as [b lines out]. simpl in *. subst lines.
  unfold play_round, io_bind. rewrite Hprint.
  unfold on_board, ask, print. simpl. rewrite Hai.
  unfold ask_human_move. simpl.
  rewrite (ask_from_first_valid b bad good rest m Hbad Hgood).
  unfold do_push. rewrite <- !app_assoc. reflexivity.
Qed.

Lemma play_round_computer mode draw w :
  Reversible E -> Consistent E ->
  is_game_over (w_board w) = false ->
  is_ai_turn mode (w_board w) = true ->
  exists vb m,
    visual_board (w_board w) = Some vb
    /\ In m (legal_moves (w_board w))
    /\ computer_turn mode draw (w_board w) = Some (tt, push (w_board w) m)
    /\ play_round mode draw w
       = Some (tt, mkWorld (push (w_board w) m) (w_stdin w)
                     (w_stdout w ++ map Line (board_prints vb)
                      ++ [Line "Black's move"; Line "Computer is thinking...";
                          Line ("Computer plays: " ++ san (w_board w) m)])).
Proof.
  intros Hrev Hcons Hover Hai.
  destruct (print_board_ok w) as [vb [Hvb [_ Hprint]]].
  pose proof (is_ai_turn_black _ _ Hai) as Hturn.
  destruct w as [b lines out]. cbn [w_board w_stdin w_stdout] in *.
  assert (Hfound : exists m,
            In m (legal_moves b)
            /\ (if String.eqb mode "hvr" then get_random_move draw
                else r <- call_minimax play_game_search_args ;; ret (snd r)) b
               = Some (Some m, b)).
  { destruct (String.eqb mode "hvr").
    - destruct (get_random_move_legal draw b) as [om [Hr [Hnone Hsome]]].
      destruct om as [m|].
      + exists m. split; [apply Hsome; reflexivity|exact Hr].
      + exfalso. apply (Hcons b Hover). apply Hnone. reflexivity.
    - destruct (minimax_found Hrev Hcons 3 NegInf PosInf true b)
        as [r [Hr [_ Hf]]].
      destruct Hf as [z [m [-> Hin]]]; [discriminate|exact Hover|].
      exists m. split; [exact Hin|].
      assert (Hcall : call_minimax play_game_search_args b
                      = Some ((Fin z, Some m), b)) by exact Hr.
      unfold bind. rewrite Hcall. reflexivity. }
  destruct Hfound as [m [Hin Hm]].
  exists vb, m. split; [exact Hvb|]. split; [exact Hin|]. split.
  - unfold computer_turn. unfold bind at 1. rewrite Hm. reflexivity.
  - unfold play_round, io_bind. rewrite Hprint.
    cbn [on_board ask print w_board w_stdin w_stdout].
    rewrite Hai.
    cbn [on_board ask print w_board w_stdin w_stdout].
    unfold on_board at 1. cbn [w_board w_stdin w_stdout]. rewrite Hm.
    unfold on_board, do_push, io_ret. cbn [w_board w_stdin w_stdout].
    unfold turn_color. rewrite Hturn.
    rewrite <- !app_assoc. reflexivity.
Qed.

Lemma play_loop_unfold fuel mode rnd n w :
  play_loop fuel mode rnd n w
  = if is_game_over (w_board w) then Some (true, w)
    else match fuel with
         | O => Some (false, w)
         | S fuel' =>
             match play_round mode (rnd n) w with
             | Some (_, w1) => play_loop fuel' mode rnd (S n) w1
             | None => None
             end
         end.
Proof.
  destruct w as [b lines out].
  destruct fuel; cbn [play_loop]; unfold io_bind at 1;
    cbn [on_board ask w_board w_stdin w_stdout];
    destruct (is_game_over b); reflexivity.
Qed.


Lemma game_over_report_ok (w : World) :
  exists vb,
    visual_board (w_board w) = Some vb
    /\ game_over_report w
       = Some (tt, mkWorld (w_board w) (w_stdin w)
                     (w_stdout w ++ map Line (board_prints vb)
                      ++ [Line "Game over!"; Line (verdict (w_board w))])).
Proof.
  destruct (print_board_ok w) as [vb [Hvb [_ Hprint]]].
  exists vb. split; [exact Hvb|].
  destruct w as [b lines out]. cbn [w_board w_stdin w_stdout] in *.
  unfold game_over_report, io_bind. rewrite Hprint.
  cbn [on_board ask print w_board w_stdin w_stdout].
  unfold verdict.
  destruct (is_checkmate b); unfold print; cbn [w_board w_stdin w_stdout];
    rewrite <- !app_assoc; reflexivity.
Qed.

(** X15.  [print_board] never raises and touches neither the board nor the
    input: it prints the twelve lines of the grid of the board. *)
Theorem print_board_prints :
  forall w : World,
  exists vb,
    visual_board (w_board w) = Some vb
    /\ List.length (board_prints vb) = 12%nat
    /\ print_board w
       = Some (tt, mkWorld (w_board w) (w_stdin w)
                     (w_stdout w ++ map Line (board_prints vb))).
Proof. intros w. apply print_board_ok. Qed.

(** X16.  A round of [play_game] in which the human moves (it is White's
    turn, or the mode is neither 'hvr' nor 'hvm'): the move of the first
    line of input that [parse_san] accepts is pushed, the lines after it stay
    unread, and nothing is searched or drawn. *)
Theorem play_round_human_move :
  forall (mode : string) (draw : nat) (w : World)
         (bad : list string) (good : string) (rest : list string) (m : Move),
  turn (w_board w) = WHITE
  \/ (String.eqb mode "hvr" = false /\ String.eqb mode "hvm" = false) ->
  w_stdin w = bad ++ good :: rest ->
  (forall line, In line bad -> parse_san (w_board w) (strip line) = None) ->
  parse_san (w_board w) (strip good) = Some m ->
  exists vb,
    visual_board (w_board w) = Some vb
    /\ play_round mode draw w
       = Some (tt, mkWorld (push (w_board w) m) rest
                     (w_stdout w ++ map Line (board_prints vb)
                      ++ [Line (turn_color (w_board w) ++ "'s move")]
                      ++ rejected_output bad ++ [Prompt move_prompt])).
Proof.
  intros mode draw w bad good rest m Hhuman Hin Hbad Hgood.
  apply (play_round_human mode draw w bad good rest m); try assumption.
  apply is_ai_turn_human. exact Hhuman.
Qed.

(** X17.  A round of [play_game] in which the computer moves, on a board that
    is not game over (the rules engine as in X9): no input is read, one legal
    move is pushed, the one [computer_turn] plays, and it is announced after
    the board and Black's turn. *)
Theorem play_round_computer_move :
  Reversible E -> Consistent E ->
  forall (mode : string) (draw : nat) (w : World),
  is_game_over (w_board w) = false ->
  is_ai_turn mode (w_board w) = true ->
  exists vb m,
    visual_board (w_board w) = Some vb
    /\ In m (legal_moves (w_board w))
    /\ computer_turn mode draw (w_board w) = Some (tt, push (w_board w) m)
    /\ play_round mode draw w
       = Some (tt, mkWorld (push (w_board w) m) (w_stdin w)
                     (w_stdout w ++ map Line (board_prints vb)
                      ++ [Line "Black's move"; Line "Computer is thinking...";
                          Line ("Computer plays: " ++ san (w_board w) m)])).
Proof.
  intros Hrev Hcons mode draw w Hover Hai.
  apply play_round_computer; assumption.
Qed.





(** X19.  On a board that is game over already, [play_game] plays no round:
    it reads no input and leaves the board alone, and prints the opening
    line, the board, "Game over!" and the verdict, which gives a checkmate to
    the side that is not to move and calls everything else a draw. *)
Theorem play_game_finished_game :
  forall (fuel : nat) (mode : string) (rnd : nat -> nat) (w : World),
  is_game_over (w_board w) = true ->
  exists vb,
    visual_board (w_board w) = Some vb
    /\ play_game fuel mode rnd w
       = Some (true,
               mkWorld (w_board w) (w_stdin w)
                 (w_stdout w
                  ++ [Line ("Starting Chess Game | Mode: " ++ mode)]
                  ++ map Line (board_prints vb)
                  ++ [Line "Game over!";
                      Line (if is_checkmate (w_board w) then
                              "Checkmate! "
                              ++ (if Bool.eqb (turn (w_board w)) WHITE
                                  then "Black" else "White")
                              ++ " wins!"
                            else "It's a draw! " ++ result (w_board w))%string])).
Proof.
  intros fuel mode rnd w Hover.
  destruct w as [b lines out]. cbn [w_board w_stdin w_stdout] in *.
  destruct (game_over_report_ok
              (mkWorld b lines
                 (out ++ [Line ("Starting Chess Game | Mode: " ++ mode)])))
    as [vb [Hvb Hrep]].
  cbn [w_board w_stdin w_stdout] in *.
  exists vb. split; [exact Hvb|].
  unfold play_game, io_bind. cbn [print w_board w_stdin w_stdout].
  rewrite play_loop_unfold. cbn [w_board]. rewrite Hover.
  rewrite Hrep. unfold io_ret, verdict. rewrite <- !app_assoc. reflexivity.
Qed.

End ConsoleProperties.

(** ** The further properties on the example positions *)

Module MoreChecks.
Import Table Examples MoreExamples ExampleConsole.

Local Ltac reversible := intros [h st] m _; reflexivity.
Local Ltac consistent :=
  intros [h st]; simpl;
  do 7 (destruct h as [|h]; simpl; try discriminate).

Lemma minimax_window_witness :
  exists r v,
    @minimax game_engine 3 (Fin (-5)) (Fin 2) true start = Some (r, start)
    /\ @minimax game_engine 3 NegInf PosInf true start = Some (v, start)
    /\ within (Fin (-5)) (Fin 2) (fst r) (fst v).
Proof.
  apply (@minimax_window game_engine); [reversible | reflexivity].
Defined.

Lemma minimax_maximizes_witness :
  exists s om,
    @minimax game_engine 3 NegInf PosInf true start = Some ((s, om), start)
    /\ (forall m, In m (@legal_moves game_engine start) ->
          exists v, @subtree_score game_engine 2 false start m v
                    /\ (v <= s)%score)
    /\ match om with
       | None => s = NegInf
       | Some m0 =>
           exists pre post,
             @legal_moves game_engine start = pre ++ m0 :: post
             /\ @subtree_score game_engine 2 false start m0 s
             /\ forall m, In m pre ->
                  exists v, @subtree_score game_engine 2 false start m v
                            /\ (v < s)%score
       end.
Proof.
  apply (@minimax_maximizes game_engine); [reversible | reflexivity].
Defined.

Lemma minimax_minimizes_witness :
  exists s om,
    @minimax game_engine 3 NegInf PosInf false start = Some ((s, om), start)
    /\ (forall m, In m (@legal_moves game_engine start) ->
          exists v, @subtree_score game_engine 2 true start m v
                    /\ (s <= v)%score)
    /\ match om with
       | None => s = PosInf
       | Some m0 =>
           exists pre post,
             @legal_moves game_engine start = pre ++ m0 :: post
             /\ @subtree_score game_engine 2 true start m0 s
             /\ forall m, In m pre ->
                  exists v, @subtree_score game_engine 2 true start m v
                            /\ (s < v)%score
       end.
Proof.
  apply (@minimax_minimizes game_engine); [reversible | reflexivity].
Defined.

Lemma minimax_score_in_range_witness :
  exists (z : Z) (om : option nat),
    @minimax game_engine 3 (Fin 1) (Fin 0) false start
    = Some ((Fin z, om), start)
    /\ -1000 <= z <= 1000.
Proof.
  apply (@minimax_score_in_range game_engine); [reversible | consistent].
Defined.

Lemma minimax_finds_mate_witness :
  exists m0,
    @minimax mating_engine 3 NegInf PosInf true start
    = Some ((Fin 1000, Some m0), start)
    /\ In m0 (@legal_moves mating_engine start)
    /\ @subtree_score mating_engine 2 false start m0 (Fin 1000).
Proof.
  apply (@minimax_finds_mate mating_engine) with (m := 1%nat);
    [reversible | consistent | reflexivity | right; left; reflexivity
    | reflexivity | reflexivity | reflexivity].
Defined.

Lemma minimax_mate_in_one_witness :
  exists m0,
    @minimax mating_engine 1 NegInf PosInf true start
    = Some ((Fin 1000, Some m0), start)
    /\ In m0 (@legal_moves mating_engine start)
    /\ @is_checkmate mating_engine (@push mating_engine start m0) = true
    /\ @turn mating_engine (@push mating_engine start m0) = BLACK.
Proof.
  apply (@minimax_mate_in_one mating_engine) with (m := 1%nat);
    [reversible | reflexivity | right; left; reflexivity
    | reflexivity | reflexivity].
Defined.

Lemma get_random_move_covers_witness :
  exists rnd,
    (rnd < List.length (@legal_moves game_engine start))%nat
    /\ @get_random_move game_engine rnd start = Some (Some 1%nat, start).
Proof.
  apply (@get_random_move_covers game_engine start 1%nat).
  right; left; reflexivity.
Defined.

Lemma computer_turn_plays_legal_move_witness :
  exists m,
    In m (@legal_moves game_engine start)
    /\ @computer_turn game_engine "hvr" 7 start
       = Some (tt, @push game_engine start m).
Proof.
  apply (@computer_turn_plays_legal_move game_engine);
    [reversible | consistent | reflexivity].
Defined.

Lemma evaluate_board_one_square_witness :
  @evaluate_board game_engine (at_position 3)
  = @evaluate_board game_engine (at_position 0)
    - contribution (@piece_at game_engine (at_position 0) 59%nat)
    + contribution (@piece_at game_engine (at_position 3) 59%nat).
Proof.
  apply (@evaluate_board_one_square game_engine (at_position 0) (at_position 3));
    [lia | | reflexivity | reflexivity | reflexivity | reflexivity].
  intros sq _ Hne.
  change (assoc sq [(4%nat, wK); (0%nat, wR); (60%nat, bK)]
          = assoc sq [(4%nat, wK); (0%nat, wR); (60%nat, bK); (59%nat, bQ)]).
  cbn [assoc].
  destruct (Nat.eqb 4 sq), (Nat.eqb 0 sq), (Nat.eqb 60 sq); try reflexivity.
  destruct (Nat.eqb_spec 59 sq); [congruence | reflexivity].
Defined.

Lemma evaluate_board_swap_colors_witness :
  @evaluate_board mirrored_engine (at_position 1)
  = - @evaluate_board mirrored_engine (at_position 0).
Proof.
  apply (@evaluate_board_swap_colors mirrored_engine (at_position 0)
           (at_position 1));
    [ | reflexivity | reflexivity | reflexivity].
  intros sq _.
  change (assoc sq [(4%nat, bK); (3%nat, bQ); (60%nat, wK)]
          = option_map swap_color
              (assoc sq [(4%nat, wK); (3%nat, wQ); (60%nat, bK)])).
  cbn [assoc].
  destruct (Nat.eqb 4 sq), (Nat.eqb 3 sq), (Nat.eqb 60 sq); reflexivity.
Defined.

Lemma ask_human_move_first_valid_witness :
  @ask_human_move game_engine game_console
    (world 0 (["x"%string; "7"%string] ++ "1"%string :: ["0"%string])%list)
  = Some (1%nat,
          mkWorld (E := game_engine) (at_position 0) ["0"%string]
            ([] ++ rejected_output ["x"; "7"]%string ++ [Prompt move_prompt])).
Proof.
  apply (@ask_human_move_first_valid game_engine game_console).
  - intros line [<- | [<- | []]]; reflexivity.
  - reflexivity.
Defined.

Lemma play_round_human_move_witness :
  exists vb,
    @visual_board game_engine (at_position 1) = Some vb
    /\ @play_round game_engine game_console "hvm" 0 (world 1 ["x"; "1"]%string)
       = Some (tt,
               mkWorld (E := game_engine)
                 (@push game_engine (at_position 1) 1%nat) []
                 ([] ++ map Line (board_prints vb)
                  ++ [Line (@turn_color game_engine (at_position 1) ++ "'s move")]
                  ++ rejected_output ["x"%string] ++ [Prompt move_prompt])).
Proof.
  apply (@play_round_human_move game_engine game_console "hvm" 0%nat
           (world 1 ["x"; "1"]%string) ["x"%string] "1"%string [] 1%nat).
  - left. reflexivity.
  - reflexivity.
  - intros line [<- | []]. reflexivity.
  - reflexivity.
Defined.

Lemma play_round_computer_move_witness :
  exists vb m,
    @visual_board game_engine (at_position 0) = Some vb
    /\ In m (@legal_moves game_engine (at_position 0))
    /\ @computer_turn game_engine "hvm" 0 (at_position 0)
       = Some (tt, @push game_engine (at_position 0) m)
    /\ @play_round game_engine game_console "hvm" 0 (world 0 ["1"%string])
       = Some (tt,
               mkWorld (E := game_engine)
                 (@push game_engine (at_position 0) m) ["1"%string]
                 ([] ++ map Line (board_prints vb)
                  ++ [Line "Black's move"; Line "Computer is thinking...";
                      Line ("Computer plays: "
                            ++ @san game_engine game_console (at_position 0) m)])).
Proof.
  apply (@play_round_computer_move game_engine game_console
           ltac:(reversible) ltac:(consistent) "hvm" 0%nat
           (world 0 ["1"%string]));
    reflexivity.
Defined.


Lemma play_game_finished_game_witness :
  exists vb,
    @visual_board game_engine (at_position 2) = Some vb
    /\ @play_game game_engine game_console 0 "hvm" (fun _ => 0%nat) (world 2 [])
       = Some (true,
               mkWorld (E := game_engine) (at_position 2) []
                 ([] ++ [Line "Starting Chess Game | Mode: hvm"]
                  ++ map Line (board_prints vb)
                  ++ [Line "Game over!"; Line "Checkmate! Black wins!"])).
Proof.
  apply (@play_game_finished_game game_engine game_console 0 "hvm"
           (fun _ => 0%nat) (world 2 [])).
  reflexivity.
Defined.

End MoreChecks.
